(** * Dependency resolution and execution: a model of [insights/core/dr.py]

    The development follows the module top to bottom: the requirement
    algebra ([split_requirements], [get_missing_requirements]), the
    [Broker] container with its observer dispatch, the two standard
    executors, the [Delegate] and the registry indices written by
    [register_component], the topological ordering used by [run_order],
    and the [run] loop.

    Python dictionaries are finite maps ([gmap]), Python sets are finite
    sets ([gset]); a [defaultdict] is a map read with a default.  Python
    exceptions are an error result ([Raise]).  Component handles, type
    tags, groups and observers are opaque hashable objects: countable
    types with decidable equality. *)

From stdpp Require Import gmap strings list fin_maps fin_sets.

#[local] Set Warnings "-register-all,-clear-no-such-hyp".
#[local] Set Default Proof Using "Type".

Section model.

Context {K : Type} `{Countable K}.      (* component handles *)
Context {T : Type} `{Countable T}.      (* component type tags *)
Context {G : Type} `{Countable G}.      (* groups *)
Context {O : Type} `{Countable O}.      (* observer callbacks *)

(** [ANY_TYPE = object()]: a distinguished tag. *)
Variable ANY_TYPE : T.

(** [get_name(component)]: module and qualified name; an attribute of the
    handle. *)
Variable get_name : K → string.

(** ** Values, requirement specs, exceptions *)

(** The fragment of Python values that the executors build or pass on. *)
Inductive value : Type :=
| VNone
| VInt (n : Z)
| VList (vs : list value).

(** An element of a [requires] spec: [isinstance(r, list)] tells a group
    from a single component. *)
Inductive requirement : Type :=
| Single (c : K)
| AnyOf (group : list K).

(** The pair carried by [MissingRequirements]. *)
Definition missing : Type := (list K * list (list K))%type.

(** Instances of Python's [Exception] that the module raises or handles.
    [ComponentError] stands for any other [Exception] raised by a component
    or an observer body (a [ValueError], say). *)
Inductive exn : Type :=
| MissingRequirements (requirements : missing)
| SkipComponent
| KeyError (msg : string)
| CircularDependencyError
| ComponentError (name : string).

Inductive result (A : Type) : Type :=
| Ok (a : A)
| Raise (e : exn).
Global Arguments Ok {A} a.
Global Arguments Raise {A} e.

Definition bind {A B} (m : result A) (k : A → result B) : result B :=
  match m with
  | Ok a => k a
  | Raise e => Raise e
  end.

Fixpoint mapM_result {A B} (f : A → result B) (l : list A) : result (list B) :=
  match l with
  | [] => Ok []
  | a :: l' =>
      bind (f a) (λ b, bind (mapM_result f l') (λ bs, Ok (b :: bs)))
  end.

(** ** The broker *)

Record Broker : Type := mkBroker {
  instances : gmap K value;
  missing_requirements : gmap K missing;
  exceptions : gmap K (list exn);      (* defaultdict(list) *)
  tracebacks : list exn;               (* keys of [tracebacks], in order *)
  exec_times : gset K;                 (* keys of [exec_times] *)
  observers : gmap T (gset O)          (* defaultdict(set) *)
}.

(** What a run leaves behind besides the broker: the [log.info] record
    written before a delegate is invoked, the observer calls with their
    arguments, and the [log.exception] records. *)
Inductive event : Type :=
| Trying (component : K)
| ObserverCall (o : O) (component : K) (self : Broker)
| LogException (e : exn).

Record World : Type := mkWorld {
  broker : Broker;
  events : list event
}.

(** Methods that write to the broker or to the log are state transformers
    that may raise; an exception leaves the state as it was when raised. *)
Definition M (A : Type) : Type := World → result A * World.

Definition ret {A} (a : A) : M A := λ w, (Ok a, w).

Definition raise {A} (e : exn) : M A := λ w, (Raise e, w).

Definition lift {A} (r : result A) : M A := λ w, (r, w).

Definition mbind {A B} (m : M A) (k : A → M B) : M B :=
  λ w, match m w with
       | (Ok a, w') => k a w'
       | (Raise e, w') => (Raise e, w')
       end.

Definition get_broker : M Broker := λ w, (Ok (broker w), w).

Definition put_broker (b : Broker) : M unit :=
  λ w, (Ok (), mkWorld b (events w)).

Definition emit (e : event) : M unit :=
  λ w, (Ok (), mkWorld (broker w) (events w ++ [e])).

(** [try: m except Exception as e: handler(e)] *)
Definition try_except {A} (m : M A) (handler : exn → M A) : M A :=
  λ w, match m w with
       | (Ok a, w') => (Ok a, w')
       | (Raise e, w') => handler e w'
       end.

(** [try: m finally: f] *)
Definition try_finally {A} (m : M A) (f : M unit) : M A :=
  λ w, match m w with
       | (r, w') =>
           match f w' with
           | (Ok _, w'') => (r, w'')
           | (Raise e, w'') => (Raise e, w'')
           end
       end.

(** [for x in l: body(x)] *)
Fixpoint for_each {A} (l : list A) (body : A → M unit) : M unit :=
  match l with
  | [] => ret ()
  | x :: l' => mbind (body x) (λ _, for_each l' body)
  end.

Definition set_instances (f : gmap K value → gmap K value) (b : Broker) : Broker :=
  mkBroker (f (instances b)) (missing_requirements b) (exceptions b)
           (tracebacks b) (exec_times b) (observers b).

(** [Broker.__contains__] *)
Definition broker_contains (b : Broker) (component : K) : bool :=
  bool_decide (component ∈ dom (instances b)).

(** [Broker.__setitem__] *)
Definition broker_setitem (component : K) (instance : value) : M unit :=
  mbind get_broker (λ self,
    if broker_contains self component
    then raise (KeyError ("Already exists in broker with key: "
                          +:+ get_name component))
    else put_broker (set_instances (insert component instance) self)).

(** [Broker.__delitem__] *)
Definition broker_delitem (component : K) : M unit :=
  mbind get_broker (λ self,
    if broker_contains self component
    then put_broker (set_instances (delete component) self)
    else ret ()).

(** [Broker.__getitem__] *)
Definition broker_getitem (b : Broker) (component : K) : result value :=
  match instances b !! component with
  | Some v => Ok v
  | None => Raise (KeyError ("Unknown component: " +:+ get_name component))
  end.

(** [Broker.get]: only a [KeyError] is turned into the default. *)
Definition broker_get (b : Broker) (component : K) (default : value)
  : result value :=
  match broker_getitem b component with
  | Ok v => Ok v
  | Raise (KeyError _) => Ok default
  | Raise e => Raise e
  end.

(** [del d[k]] on a plain [dict], for comparison with [broker_delitem]. *)
Definition dict_delitem (d : gmap K value) (k : K) : result (gmap K value) :=
  match d !! k with
  | Some _ => Ok (delete k d)
  | None => Raise (KeyError (get_name k))
  end.

(** ** Requirement algebra *)

Fixpoint split_requirements (requires : list requirement) : missing :=
  match requires with
  | [] => ([], [])
  | r :: rest =>
      let '(req_all, req_any) := split_requirements rest in
      match r with
      | AnyOf g => (req_all, g :: req_any)
      | Single c => (c :: req_all, req_any)
      end
  end.

(** [set(r).isdisjoint(d)] *)
Definition isdisjoint (r : list K) (d : gset K) : bool :=
  forallb (λ x, bool_decide (x ∉ d)) r.

Definition get_missing_requirements (IGNORE : gmap K (gset K))
    (func : K) (requires : list requirement) (d : Broker)
  : result (option missing) :=
  match requires with
  | [] => Ok None
  | _ =>
      if existsb (broker_contains d) (elements (default ∅ (IGNORE !! func)))
      then Raise SkipComponent
      else
        let '(req_all, req_any) := split_requirements requires in
        let d := dom (instances d) in
        let req_all := filter (λ r, r ∉ d) req_all in
        let req_any := filter (λ r, isdisjoint r d = true) req_any in
        match req_all, req_any with
        | [], [] => Ok None
        | _, _ => Ok (Some (req_all, req_any))
        end
  end.

(** ** Executors *)

(** What a component callable receives: positional arguments from
    [default_executor], the broker itself from [broker_executor]. *)
Inductive arguments : Type :=
| Positional (args : list value)
| WithBroker (b : Broker).

(** The component bodies: calling [func] on its arguments returns a value
    or raises.  Components read the broker they are given and do not write
    to it. *)
Variable invoke : K → arguments → result value.

Definition broker_executor (IGNORE : gmap K (gset K))
    (func : K) (broker : Broker) (requires : list requirement)
    (optional : list K) : result value :=
  bind (get_missing_requirements IGNORE func requires broker)
    (λ missing_requirements,
       match missing_requirements with
       | Some mr => Raise (MissingRequirements mr)
       | None => invoke func (WithBroker broker)
       end).

(** The loop of [default_executor] that flattens [requires]:
    [args.extend(r)] for a list, [args.append(r)] otherwise. *)
Fixpoint flatten_requires (requires : list requirement) : list K :=
  match requires with
  | [] => []
  | AnyOf r :: rest => r ++ flatten_requires rest
  | Single r :: rest => r :: flatten_requires rest
  end.

Definition default_executor (IGNORE : gmap K (gset K))
    (func : K) (broker : Broker) (requires : list requirement)
    (optional : list K) : result value :=
  bind (get_missing_requirements IGNORE func requires broker)
    (λ missing_requirements,
       match missing_requirements with
       | Some mr => Raise (MissingRequirements mr)
       | None =>
           let args := flatten_requires requires ++ optional in
           bind (mapM_result (λ a, broker_get broker a VNone) args)
             (λ args, invoke func (Positional args))
       end).

(** ** Delegates and the registry *)

(** [executor(component, broker, requires, optional)]; the first argument
    is the module-level [IGNORE] table the executor reads. *)
Definition executor_t : Type :=
  gmap K (gset K) → K → Broker → list requirement → list K → result value.

Record Delegate : Type := mkDelegate {
  component : K;
  executor : executor_t;
  group : option G;
  requires : list requirement;
  optional : list K;
  added_dependencies : list K;
  type : option T;
  dependencies : gset K
}.

(** [Delegate.__call__] *)
Definition call_delegate (IGNORE : gmap K (gset K)) (self : Delegate)
    (broker : Broker) : result value :=
  executor self IGNORE (component self) broker (requires self) (optional self).

Record Registry : Type := mkRegistry {
  MODULE_NAMES : gmap K (option string);
  BASE_MODULE_NAMES : gmap K (option string);
  TYPE_OBSERVERS : gmap T (gset O);
  COMPONENTS_BY_TYPE : gmap (option T) (gset K);
  DEPENDENCIES : gmap K (gset K);
  DEPENDENTS : gmap K (gset K);
  COMPONENTS : gmap (option G) (gmap K (gset K));
  DELEGATES : gmap K Delegate;
  HIDDEN : gset K;
  IGNORE : gmap K (gset K);
  COMPONENT_NAME_CACHE : gmap string K
}.

Definition empty_registry : Registry :=
  mkRegistry ∅ ∅ ∅ ∅ ∅ ∅ ∅ ∅ ∅ ∅ ∅.

Definition get_delegate (R : Registry) (component : K) : option Delegate :=
  DELEGATES R !! component.

(** [IGNORE[c].add(i)] *)
Definition add_ignore (c i : K) (R : Registry) : Registry :=
  mkRegistry (MODULE_NAMES R) (BASE_MODULE_NAMES R) (TYPE_OBSERVERS R)
    (COMPONENTS_BY_TYPE R) (DEPENDENCIES R) (DEPENDENTS R) (COMPONENTS R)
    (DELEGATES R) (HIDDEN R)
    (<[c := default ∅ (IGNORE R !! c) ∪ {[i]}]> (IGNORE R))
    (COMPONENT_NAME_CACHE R).

(** Modelled from the spec: the [defaults] decorator of [insights.util];
    an accessor that reads through [get_delegate] returns the default
    ([None] here) when the component has no delegate. *)
Definition get_component_type (R : Registry) (component : K) : option T :=
  match get_delegate R component with
  | Some d => type d
  | None => None
  end.

(** [DEPENDENTS[component].add(dep)] *)
Definition add_dependent (component dep : K) (R : Registry) : Registry :=
  mkRegistry (MODULE_NAMES R) (BASE_MODULE_NAMES R) (TYPE_OBSERVERS R)
    (COMPONENTS_BY_TYPE R) (DEPENDENCIES R)
    (<[component := default ∅ (DEPENDENTS R !! component) ∪ {[dep]}]> (DEPENDENTS R))
    (COMPONENTS R) (DELEGATES R) (HIDDEN R) (IGNORE R)
    (COMPONENT_NAME_CACHE R).

(** The dependency set computed by [Delegate.__init__]. *)
Definition delegate_dependencies (requires : list requirement)
    (optional : list K) : gset K :=
  let '(_all, _any) :=
    match requires with
    | [] => (∅, ∅)
    | _ =>
        let '(_all, _any) := split_requirements requires in
        (list_to_set _all, list_to_set (concat _any))
    end in
  let _optional := list_to_set optional in
  _all ∪ _any ∪ _optional.

(** [Delegate.__init__]: builds the delegate and adds the component to the
    dependents of each of its dependencies. *)
Definition new_Delegate (component : K) (requires : list requirement)
    (optional : list K) (R : Registry) : Delegate * Registry :=
  let dependencies := delegate_dependencies requires optional in
  (mkDelegate component default_executor None requires optional [] None
     dependencies,
   foldr (λ d R, add_dependent d component R) R (elements dependencies)).

Variable get_module_name : K → option string.
Variable get_base_module_name : K → option string.

Definition register_component (delegate : Delegate) (R : Registry) : Registry :=
  let component := component delegate in
  let dependencies := dependencies delegate in
  let in_group := default ∅ (COMPONENTS R !! group delegate) in
  mkRegistry
    (<[component := get_module_name component]> (MODULE_NAMES R))
    (<[component := get_base_module_name component]> (BASE_MODULE_NAMES R))
    (TYPE_OBSERVERS R)
    (<[type delegate :=
         default ∅ (COMPONENTS_BY_TYPE R !! type delegate) ∪ {[component]}]>
       (COMPONENTS_BY_TYPE R))
    (<[component := dependencies]> (DEPENDENCIES R))
    (DEPENDENTS R)
    (<[group delegate :=
         <[component := default ∅ (in_group !! component) ∪ dependencies]>
           in_group]>
       (COMPONENTS R))
    (<[component := delegate]> (DELEGATES R))
    (HIDDEN R) (IGNORE R)
    (<[get_name component := component]> (COMPONENT_NAME_CACHE R)).

(** The inner [_f(func)] of a decorator made by [new_component_type]:
    [decorator] is the decorator object itself (the default type tag),
    [the_group], [component_type] and the spec are what the decoration
    site resolved to, [executor] is the factory's. *)
Definition decorate (decorator : T) (executor : option executor_t)
    (the_group : option G) (component_type : option T)
    (requires : list requirement) (optional : list K)
    (func : K) (R : Registry) : Registry :=
  let '(delegate, R) := new_Delegate func requires optional R in
  let delegate :=
    mkDelegate (component delegate)
      (match executor with Some e => e | None => default_executor end)
      the_group (requires) (optional) (added_dependencies delegate)
      (Some (match component_type with Some t => t | None => decorator end))
      (dependencies delegate) in
  register_component delegate R.

(** One decoration site: what [decorate] is applied to. *)
Record registration : Type := mkRegistration {
  reg_decorator : T;
  reg_executor : option executor_t;
  reg_group : option G;
  reg_component_type : option T;
  reg_requires : list requirement;
  reg_optional : list K;
  reg_func : K
}.

Definition register (r : registration) (R : Registry) : Registry :=
  decorate (reg_decorator r) (reg_executor r) (reg_group r)
    (reg_component_type r) (reg_requires r) (reg_optional r) (reg_func r) R.

(** The dependency set that a decoration declares. *)
Definition reg_dependencies (r : registration) : gset K :=
  delegate_dependencies (reg_requires r) (reg_optional r).

(** A sequence of decorations, in program order. *)
Definition register_all (regs : list registration) (R : Registry) : Registry :=
  foldl (λ R r, register r R) R regs.

(** [DEPENDENCIES[c]] and [DEPENDENTS[c]] read with the [defaultdict]'s
    default. *)
Definition dependencies_of (R : Registry) (c : K) : gset K :=
  default ∅ (DEPENDENCIES R !! c).

Definition dependents_of (R : Registry) (c : K) : gset K :=
  default ∅ (DEPENDENTS R !! c).

(** [COMPONENTS[g]] and [COMPONENTS_BY_TYPE[t]], likewise. *)
Definition components_of (R : Registry) (g : option G) : gmap K (gset K) :=
  default ∅ (COMPONENTS R !! g).

Definition components_by_type (R : Registry) (t : option T) : gset K :=
  default ∅ (COMPONENTS_BY_TYPE R !! t).

(** The two indices mirror each other on the registered components. *)
Definition mirror (R : Registry) : Prop :=
  ∀ c, c ∈ dom (DELEGATES R) →
       ∀ d, d ∈ dependencies_of R c ↔ c ∈ dependents_of R d.

(** ** Broker construction, failure records and observers *)

(** [Broker.__init__] *)
Definition new_Broker (R : Registry) (seed_broker : option Broker) : Broker :=
  mkBroker
    (match seed_broker with Some seed => instances seed | None => ∅ end)
    ∅ ∅ [] ∅
    (TYPE_OBSERVERS R ∪ {[ANY_TYPE := ∅]}).

(** [Broker.add_exception] *)
Definition add_exception (component : K) (ex : exn) : M unit :=
  mbind get_broker (λ self,
    match ex with
    | MissingRequirements requirements =>
        put_broker
          (mkBroker (instances self)
             (<[component := requirements]> (missing_requirements self))
             (exceptions self) (tracebacks self) (exec_times self)
             (observers self))
    | _ =>
        put_broker
          (mkBroker (instances self) (missing_requirements self)
             (<[component := default [] (exceptions self !! component) ++ [ex]]>
                (exceptions self))
             (tracebacks self ++ [ex]) (exec_times self) (observers self))
    end).

(** [Broker.add_observer] *)
Definition broker_add_observer (o : O) (component_type : T) : M unit :=
  mbind get_broker (λ self,
    put_broker
      (mkBroker (instances self) (missing_requirements self) (exceptions self)
         (tracebacks self) (exec_times self)
         (<[component_type :=
              default ∅ (observers self !! component_type) ∪ {[o]}]>
            (observers self)))).

(** The observer bodies: [None] when the call returns, [Some e] when it
    raises the [Exception] [e].  Observers do not write to the broker. *)
Variable observe : O → K → Broker → option exn.

(** [o(component, self)] *)
Definition call_observer (o : O) (component : K) : M unit :=
  mbind get_broker (λ self,
    mbind (emit (ObserverCall o component self)) (λ _,
      match observe o component self with
      | None => ret ()
      | Some e => raise e
      end)).

(** [self.observers[ANY_TYPE]] on the [defaultdict]: the entry is created
    when it is absent. *)
Definition observers_any : M (gset O) :=
  mbind get_broker (λ self,
    match observers self !! ANY_TYPE with
    | Some os => ret os
    | None =>
        mbind (put_broker
                 (mkBroker (instances self) (missing_requirements self)
                    (exceptions self) (tracebacks self) (exec_times self)
                    (<[ANY_TYPE := ∅]> (observers self))))
          (λ _, ret ∅)
    end).

(** [Broker.fire_observers] *)
Definition fire_observers (R : Registry) (component : K) : M unit :=
  match get_component_type R component with
  | None => ret ()
  | Some _type =>
      mbind get_broker (λ self,
        let by_type := default ∅ (observers self !! _type) in
        mbind observers_any (λ any,
          for_each (elements (by_type ∪ any)) (λ o,
            try_except (call_observer o component)
              (λ e, emit (LogException e)))))
  end.

(** ** Topological ordering *)

(** Modelled from the spec: [toposort_flatten] of [insights.contrib.toposort]
    is not part of this module.  The ordering is built in layers: the
    components whose remaining dependency set is empty are output, removed
    from the graph and from the dependency sets of the others, until no
    component is left; when components remain and none is free of
    dependencies the graph has a cycle and the call is rejected.
    Dependencies that are not keys of the graph are nodes without
    dependencies of their own. *)
Definition add_extra_items (data : gmap K (gset K)) : gmap K (gset K) :=
  data ∪ gset_to_gmap ∅ (⋃ (snd <$> map_to_list data) ∖ dom data).

Definition ready (data : gmap K (gset K)) : gset K :=
  dom (filter (λ kv, kv.2 = ∅) data).

Definition remove_ordered (ordered : gset K) (data : gmap K (gset K))
  : gmap K (gset K) :=
  (λ dep, dep ∖ ordered) <$> filter (λ kv, kv.1 ∉ ordered) data.

Fixpoint toposort (fuel : nat) (data : gmap K (gset K))
  : result (list (gset K)) :=
  let ordered := ready data in
  if decide (ordered = ∅) then
    if decide (data = ∅) then Ok [] else Raise CircularDependencyError
  else
    match fuel with
    | 0 => Raise CircularDependencyError
    | S fuel =>
        bind (toposort fuel (remove_ordered ordered data))
          (λ layers, Ok (ordered :: layers))
    end.

Definition toposort_flatten (data : gmap K (gset K)) : result (list K) :=
  let data := add_extra_items data in
  bind (toposort (size data) data)
    (λ layers, Ok (concat (elements <$> layers))).

(** [run_order(components, broker)] *)
Definition run_order (components : gmap K (gset K)) : result (list K) :=
  toposort_flatten components.

(** Graph notions for the ordering: [c] depends on [d] in [g] when [d] is
    in the dependency set that [g] gives for [c]. *)
Definition depends_on (g : gmap K (gset K)) (c d : K) : Prop :=
  ∃ ds, g !! c = Some ds ∧ d ∈ ds.

Definition cyclic (g : gmap K (gset K)) : Prop :=
  ∃ c, tc (depends_on g) c c.

Definition acyclic (g : gmap K (gset K)) : Prop := ¬ cyclic g.

(** Every dependency of a key is itself a key. *)
Definition closed (data : gmap K (gset K)) : Prop :=
  ∀ c ds d, data !! c = Some ds → d ∈ ds → d ∈ dom data.

(** The components of a graph: its keys and the members of its dependency
    sets. *)
Definition nodes (g : gmap K (gset K)) : gset K :=
  dom g ∪ ⋃ (snd <$> map_to_list g).

(** [d] comes before [c] in [l]. *)
Definition before (l : list K) (d c : K) : Prop :=
  ∃ i j, l !! i = Some d ∧ l !! j = Some c ∧ i < j.

(** [l] lists every component of [g] once, each after all of its
    dependencies. *)
Definition topological_order (g : gmap K (gset K)) (l : list K) : Prop :=
  NoDup l ∧
  (∀ c, c ∈ l ↔ c ∈ nodes g) ∧
  (∀ c d, depends_on g c d → before l d c).

(** ** The run loop *)

(** The guarded call inside [try]. *)
Definition run_try (R : Registry) (component : K) : M unit :=
  mbind get_broker (λ self,
    if negb (broker_contains self component) then
      match DELEGATES R !! component with
      | Some delegate =>
          mbind (emit (Trying component)) (λ _,
            mbind (lift (call_delegate (IGNORE R) delegate self))
              (λ result, broker_setitem component result))
      | None => ret ()
      end
    else ret ()).

(** The three [except] clauses, in order. *)
Definition run_except (component : K) (e : exn) : M unit :=
  match e with
  | MissingRequirements mr => add_exception component (MissingRequirements mr)
  | SkipComponent => ret ()
  | ex => add_exception component ex
  end.

(** The [finally] clause. *)
Definition run_finally (R : Registry) (component : K) : M unit :=
  mbind get_broker (λ self,
    mbind (put_broker
             (mkBroker (instances self) (missing_requirements self)
                (exceptions self) (tracebacks self)
                (exec_times self ∪ {[component]}) (observers self)))
      (λ _, fire_observers R component)).

(** The body of the [for] loop of [run]. *)
Definition run_component (R : Registry) (component : K) : M unit :=
  try_finally
    (try_except (run_try R component) (run_except component))
    (run_finally R component).

(** [run(components, broker)]: [broker = None] allocates a new broker; the
    result is the broker together with the events of the run. *)
Definition run (R : Registry) (components : gmap K (gset K))
    (broker : option Broker) : result World :=
  let broker :=
    match broker with Some b => b | None => new_Broker R None end in
  bind (run_order components)
    (λ order,
       match for_each order (run_component R) (mkWorld broker []) with
       | (Ok _, w) => Ok w
       | (Raise e, _) => Raise e
       end).

(** ** Reading the outcome of a run *)

(** The components whose delegate was invoked, in order: the [Trying]
    records of the log. *)
Definition tried (evs : list event) : list K :=
  omap (λ e, match e with Trying c => Some c | _ => None end) evs.

(** The guarded call inside the [try] of [run]: [None] when the component
    is already in the broker or has no delegate, else the outcome of its
    delegate. *)
Definition attempt (R : Registry) (b : Broker) (component : K)
  : option (result value) :=
  if broker_contains b component then None
  else (λ delegate, call_delegate (IGNORE R) delegate b)
         <$> DELEGATES R !! component.

(** Neither a value nor a failure is recorded for [c]. *)
Definition unrecorded (b : Broker) (c : K) : Prop :=
  ¬ c ∈ dom (instances b) ∧ ¬ c ∈ dom (missing_requirements b)
  ∧ ¬ c ∈ dom (exceptions b).

(** The broker on which the loop of [run], started on a new broker, reaches
    [c]: the one left by the iterations for the components that the order
    puts before [c]. *)
Definition reaches (R : Registry) (g : gmap K (gset K)) (c : K)
    (at_turn : Broker) : Prop :=
  ∃ before after w,
    run_order g = Ok (before ++ c :: after) ∧
    for_each before (run_component R) (mkWorld (new_Broker R None) [])
    = (Ok (), w) ∧
    at_turn = broker w.

(** [c] was skipped by the loop, which reached it on the broker [at_turn]:
    its delegate was called and raised [SkipComponent], or it has no
    delegate and the guard of the loop passed over it. *)
Definition skipped (R : Registry) (at_turn : Broker) (c : K) : Prop :=
  attempt R at_turn c = Some (Raise SkipComponent) ∨ DELEGATES R !! c = None.

(** Exactly one of: a value, missing requirements, exceptions, or skipped
    with none of the three.  Each case comes with the outcome of the guarded
    call, made on the broker [at_turn], that leads to it: the value the
    delegate returned is the one stored, the requirements it reported are
    the ones recorded, and any other exception it raised is the one listed. *)
Definition exclusive_disposition (R : Registry) (at_turn b : Broker) (c : K)
  : Prop :=
  let I := c ∈ dom (instances b) in
  let M := c ∈ dom (missing_requirements b) in
  let E := c ∈ dom (exceptions b) in
  (I ∧ ¬ M ∧ ¬ E ∧
   ∃ v, attempt R at_turn c = Some (Ok v) ∧ instances b !! c = Some v) ∨
  (¬ I ∧ M ∧ ¬ E ∧
   ∃ mr, attempt R at_turn c = Some (Raise (MissingRequirements mr)) ∧
         missing_requirements b !! c = Some mr) ∨
  (¬ I ∧ ¬ M ∧ E ∧
   ∃ ex, attempt R at_turn c = Some (Raise ex) ∧
         ex ≠ SkipComponent ∧ (∀ mr, ex ≠ MissingRequirements mr) ∧
         exceptions b !! c = Some [ex]) ∨
  (¬ I ∧ ¬ M ∧ ¬ E ∧ skipped R at_turn c).

(** The two brokers record the same for [k]. *)
Definition same_records (b1 b2 : Broker) (k : K) : Prop :=
  instances b2 !! k = instances b1 !! k ∧
  missing_requirements b2 !! k = missing_requirements b1 !! k ∧
  exceptions b2 !! k = exceptions b1 !! k.

(** A second run on the broker of a first run changes no instance and
    invokes no delegate. *)
Definition rerun_is_noop (R : Registry) (g : gmap K (gset K)) : Prop :=
  ∀ w1 w2,
    run R g None = Ok w1 →
    run R g (Some (broker w1)) = Ok w2 →
    instances (broker w2) = instances (broker w1) ∧ tried (events w2) = [].

(** ** The properties under study, as they are worded *)

(** [broker.get(dep)] as a value: the lookup, [None] where absent. *)
Definition lookup_or_None (b : Broker) (dep : K) : value :=
  default VNone (instances b !! dep).

(** The positional arguments with one argument per element of [requires]:
    a single dependency contributes its lookup, an any-of group contributes
    the list of the lookups of its members; then one argument per optional
    dependency. *)
Definition grouped_arguments (b : Broker) (requires : list requirement)
    (optional : list K) : list value :=
  map (λ r, match r with
            | Single dep => lookup_or_None b dep
            | AnyOf g => VList (map (lookup_or_None b) g)
            end) requires
  ++ map (lookup_or_None b) optional.

(** The positional arguments with the groups spliced in: one argument per
    single dependency, one per member of each group, one per optional. *)
Definition flat_arguments (b : Broker) (requires : list requirement)
    (optional : list K) : list value :=
  map (lookup_or_None b) (flatten_requires requires ++ optional).

(** Some member of [IGNORE[c]] is a key of the broker. *)
Definition ignored (IGNORE : gmap K (gset K)) (c : K) (d : Broker) : Prop :=
  ∃ i, i ∈ default ∅ (IGNORE !! c) ∧ i ∈ dom (instances d).

(** Every singleton is a key of [d] and every group has a member in [d]. *)
Definition satisfied (requires : list requirement) (d : Broker) : Prop :=
  (∀ r, r ∈ (split_requirements requires).1 → r ∈ dom (instances d)) ∧
  (∀ g, g ∈ (split_requirements requires).2 →
        ∃ x, x ∈ g ∧ x ∈ dom (instances d)).

(** The pair (singletons not in [d], groups disjoint from [d]). *)
Definition unsatisfied (requires : list requirement) (d : Broker) : missing :=
  (filter (λ r, r ∉ dom (instances d)) (split_requirements requires).1,
   filter (λ g, Forall (λ x, x ∉ dom (instances d)) g)
     (split_requirements requires).2).

(** The outcome of the missing-requirement computation described without
    reference to [IGNORE]. *)
Definition missing_report (IGNORE : gmap K (gset K)) (func : K)
    (requires : list requirement) (d : Broker) : Prop :=
  let r := get_missing_requirements IGNORE func requires d in
  (requires = [] → r = Ok None) ∧
  (requires ≠ [] →
     (r = Ok None ↔ satisfied requires d) ∧
     (¬ satisfied requires d → r = Ok (Some (unsatisfied requires d)))).

(** [default_executor] calls the component on the grouped arguments
    whenever the missing-requirement check passes. *)
Definition default_executor_grouped (IGNORE : gmap K (gset K)) (func : K)
    (b : Broker) (requires : list requirement) (optional : list K) : Prop :=
  get_missing_requirements IGNORE func requires b = Ok None →
  default_executor IGNORE func b requires optional
  = invoke func (Positional (grouped_arguments b requires optional)).

(** An ignore hit raises [SkipComponent] whatever the spec. *)
Definition ignore_always_skips (IGNORE : gmap K (gset K)) (c : K)
    (requires : list requirement) (d : Broker) : Prop :=
  ignored IGNORE c d →
  get_missing_requirements IGNORE c requires d = Raise SkipComponent.

(** The events of one observer call: the call with its arguments, then
    the logged exception when the observer raised. *)
Definition observer_events (component : K) (self : Broker) (o : O)
  : list event :=
  ObserverCall o component self
  :: match observe o component self with
     | None => []
     | Some e => [LogException e]
     end.

(** The broker once [observers[ANY_TYPE]] has been read. *)
Definition with_any_entry (self : Broker) : Broker :=
  match observers self !! ANY_TYPE with
  | Some _ => self
  | None =>
      mkBroker (instances self) (missing_requirements self) (exceptions self)
        (tracebacks self) (exec_times self)
        (<[ANY_TYPE := ∅]> (observers self))
  end.

(** The observers that [fire_observers] selects for a component of type
    [t]. *)
Definition selected_observers (self : Broker) (t : T) : gset O :=
  default ∅ (observers self !! t) ∪ default ∅ (observers self !! ANY_TYPE).

(** [put], [get] and containment on the broker. *)
Definition put_get_contains (w : World) (c : K) : Prop :=
  (c ∈ dom (instances (broker w)) →
     ∀ v, ∃ msg, broker_setitem c v w = (Raise (KeyError msg), w)) ∧
  (∀ v, events (broker_setitem c v w).2 = events w) ∧
  (∀ default, ∃ v, broker_get (broker w) c default = Ok v) ∧
  (∀ default,
     broker_get (broker w) c default
     = Ok (match instances (broker w) !! c with
           | Some v => v
           | None => default
           end)) ∧
  (match instances (broker w) !! c with
   | Some v => broker_getitem (broker w) c = Ok v
   | None => ∃ msg, broker_getitem (broker w) c = Raise (KeyError msg)
   end) ∧
  (broker_contains (broker w) c = true ↔ is_Some (instances (broker w) !! c)).

(** Deletion as on a plain [dict]: an absent key raises. *)
Definition delitem_like_dict (w : World) (c : K) : Prop :=
  match dict_delitem (instances (broker w)) c with
  | Ok m =>
      broker_delitem c w
      = (Ok (), mkWorld (set_instances (λ _, m) (broker w)) (events w))
  | Raise _ => ∃ e, (broker_delitem c w).1 = Raise e
  end.

(** Deletion as [Broker.__delitem__] guards it: an absent key is left
    alone. *)
Definition delitem_guarded (w : World) (c : K) : Prop :=
  match instances (broker w) !! c with
  | Some _ =>
      broker_delitem c w
      = (Ok (), mkWorld (set_instances (delete c) (broker w)) (events w))
  | None => broker_delitem c w = (Ok (), w)
  end.

(** ** Further functions of the module *)

(** [first_of(dependencies, broker)]: the function falls off its end, and
    so returns [None], when no dependency is in the broker. *)
Fixpoint first_of (dependencies : list K) (broker : Broker) : result value :=
  match dependencies with
  | [] => Ok VNone
  | d :: rest =>
      if broker_contains broker d then broker_getitem broker d
      else first_of rest broker
  end.

(** Modelled from the spec: the [defaults] decorator of [insights.util], as
    for [get_component_type]; [get_group] defaults to [None]. *)
Definition get_group (R : Registry) (component : K) : option G :=
  match get_delegate R component with
  | Some d => group d
  | None => None
  end.

(** [get_dependents]: [DEPENDENTS.get(component, set())]. *)
Definition get_dependents (R : Registry) (component : K) : gset K :=
  default ∅ (DEPENDENTS R !! component).

(** Modelled from the spec: the [defaults] decorator of [insights.util];
    [get_dependencies] defaults to the empty set. *)
Definition get_dependencies (R : Registry) (component : K) : gset K :=
  match get_delegate R component with
  | Some d => dependencies d
  | None => ∅
  end.

(** Modelled from the spec: the [defaults] decorator of [insights.util];
    [get_added_dependencies] defaults to the empty list. *)
Definition get_added_dependencies (R : Registry) (component : K) : list K :=
  match get_delegate R component with
  | Some d => added_dependencies d
  | None => []
  end.

(** [Delegate.add_dependency]: the delegate with its two updated fields,
    and the registry with the three updated indices. *)
Definition delegate_add_dependency (self : Delegate) (dep : K) (R : Registry)
  : Delegate * Registry :=
  let group := group self in
  let self' :=
    mkDelegate (component self) (executor self) group
      (requires self) (optional self)
      (added_dependencies self ++ [dep]) (type self)
      (dependencies self ∪ {[dep]}) in
  let R := add_dependent dep (component self) R in
  let in_group := default ∅ (COMPONENTS R !! group) in
  (self',
   mkRegistry (MODULE_NAMES R) (BASE_MODULE_NAMES R) (TYPE_OBSERVERS R)
     (COMPONENTS_BY_TYPE R)
     (<[component self :=
          default ∅ (DEPENDENCIES R !! component self) ∪ {[dep]}]>
        (DEPENDENCIES R))
     (DEPENDENTS R)
     (<[group :=
          <[component self :=
              default ∅ (in_group !! component self) ∪ {[dep]}]> in_group]>
        (COMPONENTS R))
     (DELEGATES R) (HIDDEN R) (IGNORE R) (COMPONENT_NAME_CACHE R)).

(** Module-level [add_dependency(component, dep)], that is
    [get_delegate(component).add_dependency(dep)].  The delegate is the
    object stored in [DELEGATES], so its updated fields are seen there.
    [None] stands for the [AttributeError] raised on a component without
    delegate, which leaves the registry as it was. *)
Definition add_dependency (component dep : K) (R : Registry)
  : option Registry :=
  match get_delegate R component with
  | None => None
  | Some self =>
      let '(self', R) := delegate_add_dependency self dep R in
      Some
        (mkRegistry (MODULE_NAMES R) (BASE_MODULE_NAMES R) (TYPE_OBSERVERS R)
           (COMPONENTS_BY_TYPE R) (DEPENDENCIES R) (DEPENDENTS R)
           (COMPONENTS R) (<[component := self']> (DELEGATES R)) (HIDDEN R)
           (IGNORE R) (COMPONENT_NAME_CACHE R))
  end.

(** A change to the registry: a decoration or an [add_dependency]. *)
Inductive mutation : Type :=
| Decorate (r : registration)
| AddDependency (component dep : K).

Definition mutate (m : mutation) (R : Registry) : option Registry :=
  match m with
  | Decorate r => Some (register r R)
  | AddDependency c dep => add_dependency c dep R
  end.

(** A program of registry changes; it stops at the first that raises. *)
Fixpoint mutate_all (ms : list mutation) (R : Registry) : option Registry :=
  match ms with
  | [] => Some R
  | m :: ms =>
      match mutate m R with
      | Some R' => mutate_all ms R'
      | None => None
      end
  end.

(** Module-level [add_observer(o, component_type)]. *)
Definition add_observer (o : O) (component_type : T) (R : Registry)
  : Registry :=
  mkRegistry (MODULE_NAMES R) (BASE_MODULE_NAMES R)
    (<[component_type := default ∅ (TYPE_OBSERVERS R !! component_type) ∪ {[o]}]>
       (TYPE_OBSERVERS R))
    (COMPONENTS_BY_TYPE R) (DEPENDENCIES R) (DEPENDENTS R) (COMPONENTS R)
    (DELEGATES R) (HIDDEN R) (IGNORE R) (COMPONENT_NAME_CACHE R).

(** The observer calls of a log, as (observer, component) pairs in order. *)
Definition observer_calls (evs : list event) : list (O * K) :=
  omap (λ e, match e with ObserverCall o c _ => Some (o, c) | _ => None end)
    evs.

(** The observer calls that [fire_observers] makes for [c] on broker [b]. *)
Definition calls_for (R : Registry) (b : Broker) (c : K) : list (O * K) :=
  match get_component_type R c with
  | None => []
  | Some t => (λ o, (o, c)) <$> elements (selected_observers b t)
  end.

(** The broker that [run] starts from. *)
Definition start_broker (R : Registry) (broker : option Broker) : Broker :=
  match broker with Some b => b | None => new_Broker R None end.

(** The delegate runs one of the two executors of the module. *)
Definition standard_executor (dl : Delegate) : Prop :=
  executor dl = default_executor ∨ executor dl = broker_executor.

(** What the registration functions keep true of the registry: a delegate
    is stored under its own component, [DEPENDENCIES] holds the
    dependency set of the stored delegate, the mapping of the delegate's
    group lists at least those dependencies, and every dependency lists
    the component among its dependents. *)
Definition registry_consistent (R : Registry) : Prop :=
  (∀ c dl, DELEGATES R !! c = Some dl →
     component dl = c ∧
     DEPENDENCIES R !! c = Some (dependencies dl) ∧
     ∃ ds, components_of R (group dl) !! c = Some ds ∧ dependencies dl ⊆ ds) ∧
  (∀ c d, d ∈ dependencies_of R c → c ∈ dependents_of R d) ∧
  dom (DEPENDENCIES R) = dom (DELEGATES R).

(** The inner [visit(parent, visitor)] of [walk_dependencies]: the calls
    it makes on the visitor, as (component, parent) pairs in order.  The
    recursion has no base case other than a component without
    dependencies; [None] stands for the [RecursionError] raised once the
    calls nest deeper than [depth]. *)
Fixpoint visit (depth : nat) (R : Registry)
    (parent : K) : option (list (K * option K)) :=
  match depth with
  | 0 => None
  | S depth =>
      mjoin <$>
        mapM (λ d, ((d, Some parent) ::.) <$> visit depth R d)
          (elements (get_dependencies R parent))
  end.

(** [walk_dependencies(root, visitor)]: the call on the root has parent
    [None]. *)
Definition walk_dependencies (depth : nat)
    (R : Registry) (root : K)
  : option (list (K * option K)) :=
  ((root, None) ::.) <$> visit depth R root.




(** [a] has [b] among its dependencies, as [get_dependencies] reports
    them. *)
Definition requires_directly (R : Registry)
    (a b : K) : Prop :=
  b ∈ get_dependencies R a.

(** ** Sub-graphs and incremental runs *)

(** [set.pop()]: the element it removes from a non-empty set is the choice
    of the implementation; [pop n X] is the element that the [n]-th call of
    a computation removes, when it is made on the set [X]. *)
Variable pop : nat → gset K → K.

(** The inner [while frontier:] loop of [get_subgraphs], after [n] calls of
    [pop]: [seen] at the end with the number of calls made by then, [None]
    when the loop has not ended within [fuel] iterations. *)
Fixpoint flood (fuel : nat) (R : Registry)
    (graph : gmap K (gset K)) (n : nat) (frontier seen : gset K)
  : option (gset K * nat) :=
  match fuel with
  | 0 => None
  | S fuel =>
      if decide (frontier = ∅) then Some (seen, n)
      else
        let component := pop n frontier in
        let frontier := frontier ∖ {[component]} in
        let seen := seen ∪ {[component]} in
        let frontier :=
          frontier ∪ filter (λ d, d ∈ dom graph) (get_dependencies R component) in
        let frontier :=
          frontier ∪ filter (λ d, d ∈ dom graph) (get_dependents R component) in
        let frontier := frontier ∖ seen in
        flood fuel R graph (S n) frontier seen
  end.

(** The outer [while keys:] loop of [get_subgraphs], with the dictionaries
    it yields in order; [bound] is the fuel of each inner loop. *)
Fixpoint subgraphs_from (fuel bound : nat) (R : Registry)
    (graph : gmap K (gset K)) (n : nat) (keys : gset K)
  : option (list (gmap K (gset K))) :=
  match fuel with
  | 0 => None
  | S fuel =>
      if decide (keys = ∅) then Some []
      else
        let k := pop n keys in
        let keys := keys ∖ {[k]} in
        match flood bound R graph (S n) {[k]} ∅ with
        | None => None
        | Some (seen, n) =>
            (set_to_map (λ s, (s, get_dependencies R s)) seen ::.)
              <$> subgraphs_from fuel bound R graph n (keys ∖ seen)
        end
  end.

(** [get_subgraphs(graph)] *)
Definition get_subgraphs (fuel : nat) (R : Registry)
    (graph : gmap K (gset K)) : option (list (gmap K (gset K))) :=
  subgraphs_from fuel fuel R graph 0 (dom graph).

(** [d] is a key of the graph that [get_subgraphs] adds to the frontier
    when it takes [s] from it. *)
Definition linked (R : Registry) (graph : gmap K (gset K)) (s d : K)
  : Prop :=
  d ∈ dom graph ∧ (d ∈ get_dependencies R s ∨ d ∈ get_dependents R s).

(** On the keys of the graph the dependents are the mirror image of the
    dependencies. *)
Definition mirrored (R : Registry) (graph : gmap K (gset K)) : Prop :=
  ∀ s d, s ∈ dom graph → d ∈ dom graph →
    (d ∈ get_dependencies R s ↔ s ∈ get_dependents R d).

(** What every yielded dictionary is: its keys are keys of the graph, each
    mapped to its dependencies; they contain every key of the graph linked
    to one of them; and all of them are reached from one key [k]. *)
Definition subgraph_of (R : Registry) (graph sub : gmap K (gset K))
  : Prop :=
  dom sub ⊆ dom graph ∧
  (∀ s, s ∈ dom sub → sub !! s = Some (get_dependencies R s)) ∧
  (∀ s d, s ∈ dom sub → linked R graph s d → d ∈ dom sub) ∧
  ∃ k, k ∈ dom sub ∧ ∀ s, s ∈ dom sub → rtc (linked R graph) k s.

(** The loop of [run_incremental] over the sub-graphs: each is run on a new
    broker made from the seed, and the broker of the run is yielded.  The
    result is the brokers yielded, in order, and the exception that ended
    the generator when a run raised. *)
Fixpoint yield_runs (R : Registry) (seed_broker : Broker)
    (graphs : list (gmap K (gset K)))
  : list World * option exn :=
  match graphs with
  | [] => ([], None)
  | graph :: graphs =>
      let broker := new_Broker R (Some seed_broker) in
      match run R graph (Some broker) with
      | Ok w =>
          let '(ws, ex) := yield_runs R seed_broker graphs in (w :: ws, ex)
      | Raise ex => ([], Some ex)
      end
  end.

(** [run_incremental(components, broker)] *)
Definition run_incremental (fuel : nat) (R : Registry)
    (components : gmap K (gset K))
    (broker : option Broker)
  : option (list World * option exn) :=
  let seed_broker := start_broker R broker in
  yield_runs R seed_broker <$> get_subgraphs fuel R components.

(** What [run_incremental] yields for the sub-graph [sub]: the world [w] of
    its run on a new broker made from the seed. *)
Definition yielded_for (R : Registry) (seed_broker : Broker)
    (sub : gmap K (gset K)) (w : World) : Prop :=
  run R sub (Some (new_Broker R (Some seed_broker))) = Ok w.

End model.

(** * Concrete components

    Components, tags and observers named by strings, for the scenarios. *)

Module Scenario.

Definition qualified (c : string) : string := "plugins." +:+ c.

Definition no_module (c : string) : option string := None.

(** A component body that returns the list of its positional arguments. *)
Definition echo (c : string) (a : @arguments string _ _ string _ _ string _ _)
  : @result string value :=
  match a with
  | Positional args => Ok (VList args)
  | WithBroker _ => Ok VNone
  end.

Definition broker_of (inst : gmap string value)
  : @Broker string _ _ string _ _ string _ _ :=
  mkBroker inst ∅ ∅ [] ∅ ∅.

(** A broker that holds [1] for [A] and nothing for [B]. *)
Definition only_A : @Broker string _ _ string _ _ string _ _ :=
  broker_of {["A" := VInt 1]}.

Definition rule : string := "rule".
Definition parser : string := "parser".
Definition single : string := "single".
Definition cluster : string := "cluster".

(** The decorator [rule], given a spec and its optional list, applied to
    [func]. *)
Definition decl (func : string) (requires : list (@requirement string))
    (optional : list string)
  : @registration string _ _ string _ _ string string _ _ :=
  mkRegistration rule None (Some single) None requires optional func.

(** [C] declared with [requires = (A,)], then again with [requires = (B,)]. *)
Definition C_declared_twice
  : @Registry string _ _ string _ _ string _ _ string _ _ :=
  register_all qualified echo no_module no_module
    [decl "C" [Single "A"] []; decl "C" [Single "B"] []]
    empty_registry.

(** Two delegates for [C], under different groups and types. *)
Definition C_as_rule : @Delegate string _ _ string _ _ string string _ _ :=
  mkDelegate "C" (default_executor qualified echo) (Some single)
    [Single "A"] [] [] (Some rule) {["A"]}.

Definition C_as_parser : @Delegate string _ _ string _ _ string string _ _ :=
  mkDelegate "C" (default_executor qualified echo) (Some cluster)
    [Single "A"] [] [] (Some parser) {["A"]}.

Definition ANY : string := "ANY_TYPE".

(** Observers that return normally. *)
Definition quiet (o c : string) (b : @Broker string _ _ string _ _ string _ _)
  : option (@exn string) := None.

(** [A] raises [ValueError]; [B] requires [A]. *)
Definition failing_A (c : string)
    (a : @arguments string _ _ string _ _ string _ _) : @result string value :=
  if String.eqb c "A" then Raise (ComponentError "ValueError") else echo c a.

Definition A_fails : @Registry string _ _ string _ _ string _ _ string _ _ :=
  register_all qualified failing_A no_module no_module
    [decl "A" [] []; decl "B" [Single "A"] []]
    empty_registry.

Definition A_fails_graph : gmap string (gset string) :=
  components_of A_fails (Some single).

(** [V] returns, [F] raises [ValueError], [S] raises [SkipComponent] and
    [N] requires [F]; the graph also has a key [U] that nothing registers. *)
Definition four_ways_body (c : string)
    (a : @arguments string _ _ string _ _ string _ _) : @result string value :=
  if String.eqb c "F" then Raise (ComponentError "ValueError")
  else if String.eqb c "S" then Raise SkipComponent
  else echo c a.

Definition four_ways : @Registry string _ _ string _ _ string _ _ string _ _ :=
  register_all qualified four_ways_body no_module no_module
    [decl "V" [] []; decl "F" [] []; decl "S" [] []; decl "N" [Single "F"] []]
    empty_registry.

Definition four_ways_graph : gmap string (gset string) :=
  <["U" := ∅]> (components_of four_ways (Some single)).

(** [P] is given the broker and returns [1] when [Q] is in it, raising
    [ValueError] otherwise; [Q] takes [P] as an optional dependency. *)
Definition peeking (c : string)
    (a : @arguments string _ _ string _ _ string _ _) : @result string value :=
  match a with
  | WithBroker b =>
      if broker_contains b "Q" then Ok (VInt 1)
      else Raise (ComponentError "ValueError")
  | Positional args => Ok (VList args)
  end.

Definition P_peeks_at_Q
  : @Registry string _ _ string _ _ string _ _ string _ _ :=
  register_all qualified peeking no_module no_module
    [mkRegistration rule (Some (broker_executor peeking)) (Some single) None
       [] [] "P";
     decl "Q" [] ["P"]]
    empty_registry.

Definition P_peeks_at_Q_graph : gmap string (gset string) :=
  components_of P_peeks_at_Q (Some single).

(** [A] and [B] depend on each other. *)
Definition two_cycle : gmap string (gset string) :=
  {["A" := {["B"]}; "B" := {["A"]}]}.

(** A run on a fresh broker followed by a run on the broker it returned. *)
Definition run_twice
    (R : @Registry string _ _ string _ _ string _ _ string _ _)
    (g : gmap string (gset string))
  : @result string
      (@World string _ _ string _ _ string _ _
       * @World string _ _ string _ _ string _ _) :=
  bind (run ANY qualified quiet R g None)
    (λ w1, bind (run ANY qualified quiet R g (Some (broker w1)))
             (λ w2, Ok (w1, w2))).

(** [A] returns its arguments; [B] requires [A]. *)
Definition chain : @Registry string _ _ string _ _ string _ _ string _ _ :=
  register_all qualified echo no_module no_module
    [decl "A" [] []; decl "B" [Single "A"] []]
    empty_registry.

Definition chain_graph : gmap string (gset string) :=
  components_of chain (Some single).

(** Two decorations followed by an [add_dependency]. *)
Definition program
  : list (@mutation string _ _ string _ _ string string _ _) :=
  [Decorate (decl "A" [] []);
   Decorate (decl "B" [Single "A"] []);
   AddDependency "B" "X"].

(** [A] and [B], which requires [A], and [C] on its own. *)
Definition two_islands
  : @Registry string _ _ string _ _ string _ _ string _ _ :=
  register_all qualified echo no_module no_module
    [decl "A" [] []; decl "B" [Single "A"] []; decl "C" [] []]
    empty_registry.

Definition two_islands_graph : gmap string (gset string) :=
  components_of two_islands (Some single).

(** A [set.pop()] that removes the first element in the order of
    [elements], at every call. *)
Definition first_element (n : nat) (X : gset string) : string :=
  default EmptyString (head (elements X)).

End Scenario.

(** * Proofs *)

(** ** Requirement algebra and executors *)

Section requirement_algebra.

Context {K : Type} `{Countable K}.
Context {T : Type} `{Countable T}.
Context {O : Type} `{Countable O}.

Implicit Types (d b : @Broker K _ _ T _ _ O _ _).
Implicit Types (IGNORE : gmap K (gset K)).
Implicit Types (requires : list (@requirement K)).

Lemma filter_nil_Forall {A} (P : A → Prop) `{∀ x, Decision (P x)} (l : list A) :
  filter P l = [] ↔ Forall (λ x, ¬ P x) l.
Proof.
  induction l as [|a l IH]; simpl.
  - split; [constructor | done].
  - rewrite filter_cons. destruct (decide (P a)) as [Hp|Hp].
    + split; [done | intros Hf; inversion Hf; subst; contradiction].
    + rewrite IH. split; [by constructor | by inversion 1].
Qed.

Lemma isdisjoint_Forall (r : list K) (s : gset K) :
  isdisjoint r s = true ↔ Forall (λ x, x ∉ s) r.
Proof.
  unfold isdisjoint. induction r as [|x r IH]; simpl.
  - split; [constructor | done].
  - rewrite andb_true_iff, bool_decide_eq_true, IH.
    split; [intros [? ?]; by constructor | by inversion 1].
Qed.

Lemma existsb_ignored IGNORE (c : K) d :
  existsb (broker_contains d) (elements (default ∅ (IGNORE !! c))) = true
  ↔ ignored IGNORE c d.
Proof.
  rewrite existsb_exists. unfold ignored, broker_contains.
  split; intros (i & Hi & Hd); exists i.
  - apply list_elem_of_In, elem_of_elements in Hi.
    by apply bool_decide_eq_true in Hd.
  - split; [by apply list_elem_of_In, elem_of_elements
           | by apply bool_decide_eq_true].
Qed.

Lemma not_ignored_existsb IGNORE (c : K) d :
  ¬ ignored IGNORE c d →
  existsb (broker_contains d) (elements (default ∅ (IGNORE !! c))) = false.
Proof.
  intros Hn. apply not_true_is_false. by rewrite existsb_ignored.
Qed.

Lemma filter_isdisjoint (gs : list (list K)) (s : gset K) :
  filter (λ r, isdisjoint r s = true) gs
  = filter (λ g, Forall (λ x, x ∉ s) g) gs.
Proof. apply list_filter_iff. intros g. apply isdisjoint_Forall. Qed.

(** The computation past the two guards. *)
Lemma get_missing_requirements_checked IGNORE (func : K) requires d :
  requires ≠ [] → ¬ ignored IGNORE func d →
  get_missing_requirements IGNORE func requires d
  = match unsatisfied requires d with
    | ([], []) => Ok None
    | m => Ok (Some m)
    end.
Proof.
  intros Hne Hig. unfold get_missing_requirements, unsatisfied.
  destruct requires as [|r rest]; [done|].
  rewrite (not_ignored_existsb _ _ _ Hig).
  destruct (split_requirements (r :: rest)) as [req_all req_any]; simpl.
  rewrite filter_isdisjoint.
  by destruct (filter _ req_all), (filter _ req_any).
Qed.

Lemma unsatisfied_nil requires d :
  unsatisfied requires d = ([], []) ↔ satisfied requires d.
Proof.
  unfold unsatisfied, satisfied.
  destruct (split_requirements requires) as [req_all req_any]; simpl.
  split.
  - intros [= Ha Hg].
    apply filter_nil_Forall in Ha. apply filter_nil_Forall in Hg.
    rewrite Forall_forall in Ha. rewrite Forall_forall in Hg.
    split.
    + intros r Hr. specialize (Ha r Hr). simpl in Ha.
      by destruct (decide (r ∈ dom (instances d))).
    + intros g Hin. specialize (Hg g Hin). simpl in Hg.
      apply not_Forall_Exists in Hg; [|apply _].
      apply Exists_exists in Hg as (x & Hx & Hd). exists x. split; [done|].
      by destruct (decide (x ∈ dom (instances d))); [|exfalso; apply Hd].
  - intros [Ha Hg]. f_equal; apply filter_nil_Forall, Forall_forall.
    + intros r Hr Hn. by apply Hn, Ha.
    + intros g Hin Hf. destruct (Hg g Hin) as (x & Hx & Hd).
      rewrite Forall_forall in Hf. by apply (Hf x Hx).
Qed.

Variable get_name : K → string.
Variable invoke : K → @arguments K _ _ T _ _ O _ _ → @result K value.

Lemma mapM_broker_get b (l : list K) :
  mapM_result (λ a, broker_get get_name b a VNone) l
  = Ok (map (lookup_or_None b) l).
Proof.
  induction l as [|a l IH]; [done|]. simpl. rewrite IH.
  unfold broker_get, broker_getitem, lookup_or_None.
  by destruct (instances b !! a).
Qed.

Lemma flatten_requires_singles requires :
  Forall (λ r, ∃ c, r = Single c) requires →
  map (@Single K) (flatten_requires requires) = requires.
Proof.
  induction 1 as [|r rest [c ->] _ IH]; [done|]. simpl. by rewrite IH.
Qed.

(** C1 (amended).  When the missing-requirement check passes,
    [default_executor] calls the component on the broker's lookups of the
    flattened spec: one positional argument per single dependency and one
    per member of each any-of group, in declared order ([None] where
    absent), followed by one per optional dependency.  A spec without
    groups gives the grouped argument list. *)
Theorem default_executor_flat_arguments IGNORE (func : K) b requires
    (optional : list K) :
  get_missing_requirements IGNORE func requires b = Ok None →
  default_executor get_name invoke IGNORE func b requires optional
  = invoke func (Positional (flat_arguments b requires optional)) ∧
  (Forall (λ r, ∃ c, r = Single c) requires →
   flat_arguments b requires optional = grouped_arguments b requires optional).
Proof.
  intros Hm. split.
  - unfold default_executor. rewrite Hm. simpl.
    by rewrite mapM_broker_get.
  - intros Hs. unfold flat_arguments, grouped_arguments.
    rewrite map_app. f_equal.
    rewrite <- (flatten_requires_singles requires Hs) at 2.
    by rewrite map_map.
Qed.

(** C2 (amended).  When some member of [IGNORE[c]] is a key of the broker
    and the spec is not empty, the missing-requirement computation and both
    standard executors raise [SkipComponent]; with an empty spec the
    computation returns none before [IGNORE] is consulted. *)
Theorem ignore_skips_nonempty_spec IGNORE (c : K) requires
    (optional : list K) d :
  ignored IGNORE c d →
  (requires = [] → get_missing_requirements IGNORE c requires d = Ok None) ∧
  (requires ≠ [] →
   get_missing_requirements IGNORE c requires d = Raise SkipComponent ∧
   default_executor get_name invoke IGNORE c d requires optional
   = Raise SkipComponent ∧
   broker_executor invoke IGNORE c d requires optional
   = Raise SkipComponent).
Proof.
  intros Hig. split; [by intros ->|]. intros Hne.
  assert (get_missing_requirements IGNORE c requires d = Raise SkipComponent)
    as Hm.
  { unfold get_missing_requirements. destruct requires; [done|].
    apply existsb_ignored in Hig. by rewrite Hig. }
  unfold default_executor, broker_executor. by rewrite Hm.
Qed.

(** C3 (amended).  With an empty spec the computation returns none.  With
    a non-empty spec and no member of [IGNORE[c]] in [d], it returns none
    exactly when every singleton is a key of [d] and every group has a
    member in [d], and otherwise the pair (singletons not in [d], groups
    disjoint from [d]). *)
Theorem missing_report_unless_ignored IGNORE (func : K) requires d :
  requires = [] ∨ ¬ ignored IGNORE func d →
  missing_report IGNORE func requires d.
Proof.
  intros Hpre. split; [by intros ->|]. intros Hne.
  destruct Hpre as [->|Hig]; [done|].
  rewrite (get_missing_requirements_checked _ _ _ _ Hne Hig).
  pose proof (unsatisfied_nil requires d) as Hnil.
  destruct (unsatisfied requires d) as [[|a req_all] [|g req_any]].
  - split; [split; [intros _; by apply Hnil | done]|].
    intros Hn. exfalso. by apply Hn, Hnil.
  - split; [|done]. split; [done|]. intros Hs. by apply Hnil in Hs.
  - split; [|done]. split; [done|]. intros Hs. by apply Hnil in Hs.
  - split; [|done]. split; [done|]. intros Hs. by apply Hnil in Hs.
Qed.

(** C7 (amended).  [put] on a present key raises [KeyError] and leaves the
    broker and the events as they were, and no [put] produces an event;
    [get] with a default always returns; [get], item access and containment
    read [instances] as a plain mapping; deletion removes a present key and
    leaves the broker alone on an absent key, without raising. *)
Theorem broker_mapping_operations (w : @World K _ _ T _ _ O _ _) (c : K) :
  put_get_contains get_name w c ∧ delitem_guarded w c.
Proof.
  split; [repeat split|].
  - intros Hin v. eexists. unfold broker_setitem, mbind, get_broker. simpl.
    unfold broker_contains. by rewrite bool_decide_eq_true_2.
  - intros v. unfold broker_setitem, mbind, get_broker. simpl.
    by destruct (broker_contains (broker w) c).
  - intros dflt. unfold broker_get, broker_getitem.
    destruct (instances (broker w) !! c); eauto.
  - intros dflt. unfold broker_get, broker_getitem.
    by destruct (instances (broker w) !! c).
  - unfold broker_getitem. destruct (instances (broker w) !! c); eauto.
  - unfold broker_contains. rewrite bool_decide_eq_true. apply elem_of_dom.
  - unfold broker_contains. rewrite bool_decide_eq_true. apply elem_of_dom.
  - unfold delitem_guarded, broker_delitem, mbind, get_broker, broker_contains.
    simpl. destruct (instances (broker w) !! c) eqn:Hc.
    + rewrite bool_decide_eq_true_2; [done|]. apply elem_of_dom. eauto.
    + rewrite bool_decide_eq_false_2; [done|].
      rewrite elem_of_dom, Hc. by intros [? ?].
Qed.

End requirement_algebra.

(** ** Observer dispatch *)

Section observer_dispatch.

Context {K : Type} `{Countable K}.
Context {T : Type} `{Countable T}.
Context {G : Type} `{Countable G}.
Context {O : Type} `{Countable O}.

Variable ANY_TYPE : T.
Variable observe : O → K → @Broker K _ _ T _ _ O _ _ → option (@exn K).

Implicit Types (w : @World K _ _ T _ _ O _ _).
Implicit Types (R : @Registry K _ _ T _ _ G _ _ O _ _).

Lemma for_each_observers (c : K) (l : list O) w :
  for_each l
    (λ o, try_except (call_observer observe o c)
            (λ e, emit (LogException e))) w
  = (Ok (),
     mkWorld (broker w)
       (events w ++ flat_map (observer_events observe c (broker w)) l)).
Proof.
  revert w. induction l as [|o l IH]; intros w.
  - simpl. unfold ret. rewrite app_nil_r. by destruct w.
  - simpl. unfold mbind at 1, try_except, call_observer, mbind, get_broker,
      emit, observer_events. simpl.
    destruct (observe o c (broker w)) as [e|]; simpl;
      unfold raise, ret; simpl; rewrite IH; simpl;
      do 2 f_equal; rewrite <- ?app_assoc; reflexivity.
Qed.

Lemma with_any_entry_lookup (self : @Broker K _ _ T _ _ O _ _) (t : T) :
  default ∅ (observers (with_any_entry ANY_TYPE self) !! t)
  = default ∅ (observers self !! t).
Proof.
  unfold with_any_entry. destruct (observers self !! ANY_TYPE) eqn:Ha; [done|].
  simpl. destruct (decide (t = ANY_TYPE)) as [->|Hne].
  - by rewrite lookup_insert_eq, Ha.
  - by rewrite lookup_insert_ne.
Qed.

(** The exact effect of [fire_observers] on a component that has a type. *)
Lemma fire_observers_typed R (c : K) (t : T) w :
  get_component_type R c = Some t →
  fire_observers ANY_TYPE observe R c w
  = (Ok (),
     mkWorld (with_any_entry ANY_TYPE (broker w))
       (events w
        ++ flat_map
             (observer_events observe c (with_any_entry ANY_TYPE (broker w)))
             (elements (selected_observers ANY_TYPE (broker w) t)))).
Proof.
  intros Ht. unfold fire_observers. rewrite Ht.
  set (body := λ o : O, try_except (call_observer observe o c) _).
  pose proof (for_each_observers c) as Hfor. fold body in Hfor.
  unfold observers_any, mbind, get_broker, put_broker, ret, with_any_entry,
    selected_observers. cbv beta iota.
  destruct (observers (broker w) !! ANY_TYPE) as [os|] eqn:Ha;
    cbv beta iota; rewrite Hfor; cbn [broker events default];
    [done | by rewrite union_empty_r_L].
Qed.

Lemma fire_observers_untyped R (c : K) w :
  get_component_type R c = None →
  fire_observers ANY_TYPE observe R c w = (Ok (), w).
Proof. intros Ht. unfold fire_observers. by rewrite Ht. Qed.

(** C8.  [fire_observers] does nothing for a component without a type.
    Otherwise it returns normally, whatever the observers raise, after
    calling each observer registered under the component's type or under
    [ANY_TYPE] once, with the component and the broker as arguments, and
    logging the exception of each observer that raised. *)
Theorem fire_observers_dispatch R (c : K) w :
  match get_component_type R c with
  | None => fire_observers ANY_TYPE observe R c w = (Ok (), w)
  | Some t =>
      ∃ w',
        fire_observers ANY_TYPE observe R c w = (Ok (), w') ∧
        instances (broker w') = instances (broker w) ∧
        (∀ t', default ∅ (observers (broker w') !! t')
               = default ∅ (observers (broker w) !! t')) ∧
        ∃ called,
          events w'
          = events w ++ flat_map (observer_events observe c (broker w')) called ∧
          NoDup called ∧
          (∀ o, o ∈ called ↔
                o ∈ default ∅ (observers (broker w) !! t)
                ∨ o ∈ default ∅ (observers (broker w) !! ANY_TYPE)) ∧
          (∀ o, o ∈ called → ObserverCall o c (broker w') ∈ events w') ∧
          (∀ o e, o ∈ called → observe o c (broker w') = Some e →
                  LogException e ∈ events w')
  end.
Proof.
  destruct (get_component_type R c) as [t|] eqn:Ht;
    [|by apply fire_observers_untyped].
  eexists. split; [by apply fire_observers_typed|]. simpl.
  split; [unfold with_any_entry; by destruct (observers (broker w) !! ANY_TYPE)|].
  split; [apply with_any_entry_lookup|].
  exists (elements (selected_observers ANY_TYPE (broker w) t)).
  split; [done|]. split; [apply NoDup_elements|].
  split; [intros o; rewrite elem_of_elements; unfold selected_observers;
          by rewrite elem_of_union|].
  split.
  - intros o Ho. apply elem_of_app. right.
    apply list_elem_of_In, in_flat_map. exists o.
    split; [by apply list_elem_of_In|]. unfold observer_events. by left.
  - intros o e Ho He. apply elem_of_app. right.
    apply list_elem_of_In, in_flat_map. exists o.
    split; [by apply list_elem_of_In|]. unfold observer_events.
    rewrite He. right. by left.
Qed.

End observer_dispatch.

(** ** Registration *)

Section registry_indices.

Context {K : Type} `{Countable K}.
Context {T : Type} `{Countable T}.
Context {G : Type} `{Countable G}.
Context {O : Type} `{Countable O}.

Variable get_name : K → string.
Variable get_module_name : K → option string.
Variable get_base_module_name : K → option string.

Implicit Types (R : @Registry K _ _ T _ _ G _ _ O _ _).
Implicit Types (delegate : @Delegate K _ _ T _ _ G O _ _).

Local Abbreviation register_component :=
  (register_component get_name get_module_name get_base_module_name).

Lemma register_component_by_type delegate R (t : option T) :
  components_by_type (register_component delegate R) t
  = components_by_type R t
    ∪ (if decide (t = type delegate) then {[component delegate]} else ∅).
Proof.
  unfold components_by_type, register_component. simpl.
  destruct (decide (t = type delegate)) as [->|Hne].
  - by rewrite lookup_insert_eq.
  - rewrite lookup_insert_ne by done. by rewrite union_empty_r_L.
Qed.

Lemma register_component_components delegate R (g : option G) :
  components_of (register_component delegate R) g
  = if decide (g = group delegate)
    then <[component delegate :=
             default ∅ (components_of R g !! component delegate)
             ∪ dependencies delegate]> (components_of R g)
    else components_of R g.
Proof.
  unfold components_of, register_component. simpl.
  destruct (decide (g = group delegate)) as [->|Hne].
  - by rewrite lookup_insert_eq.
  - by rewrite lookup_insert_ne.
Qed.

(** Nothing leaves the per-group and per-type indices. *)
Lemma register_component_monotone delegate R :
  (∀ g k ds, components_of R g !! k = Some ds →
     ∃ ds', components_of (register_component delegate R) g !! k = Some ds'
            ∧ ds ⊆ ds') ∧
  (∀ t, components_by_type R t
        ⊆ components_by_type (register_component delegate R) t).
Proof.
  split.
  - intros g k ds Hk. rewrite register_component_components.
    destruct (decide (g = group delegate)) as [->|Hne]; [|by eauto].
    destruct (decide (k = component delegate)) as [->|Hk'].
    + rewrite lookup_insert_eq, Hk. simpl. eexists. split; [done|set_solver].
    + rewrite lookup_insert_ne by done. eauto.
  - intros t. rewrite register_component_by_type. set_solver.
Qed.

(** C10.  [register_component] installs the delegate and adds the
    component to the mapping of the delegate's group and to the set of the
    delegate's type; every entry that the per-group and per-type indices
    held before is still there.  So after a component is registered again
    under another group or type, the later delegate is the registered one
    and the component is still listed under the earlier group and type. *)
Theorem register_component_only_adds delegate1 delegate2 R :
  component delegate1 = component delegate2 →
  let c := component delegate2 in
  let R1 := register_component delegate1 R in
  let R2 := register_component delegate2 R1 in
  DELEGATES R2 !! c = Some delegate2 ∧
  c ∈ dom (components_of R2 (group delegate2)) ∧
  c ∈ components_by_type R2 (type delegate2) ∧
  c ∈ dom (components_of R2 (group delegate1)) ∧
  c ∈ components_by_type R2 (type delegate1) ∧
  (∀ g k, k ∈ dom (components_of R g) → k ∈ dom (components_of R2 g)) ∧
  (∀ g k d, d ∈ default ∅ (components_of R g !! k) →
            d ∈ default ∅ (components_of R2 g !! k)) ∧
  (∀ t k, k ∈ components_by_type R t → k ∈ components_by_type R2 t).
Proof.
  intros Hc c R1 R2.
  destruct (register_component_monotone delegate1 R) as [Hg1 Ht1].
  destruct (register_component_monotone delegate2 R1) as [Hg2 Ht2].
  fold R1 in Hg1, Ht1. fold R2 in Hg2, Ht2.
  assert (c ∈ dom (components_of R1 (group delegate1))) as Hin1.
  { unfold R1. rewrite register_component_components.
    rewrite decide_True by done. rewrite dom_insert. set_solver. }
  assert (c ∈ components_by_type R1 (type delegate1)) as Hty1.
  { unfold R1. rewrite register_component_by_type.
    rewrite decide_True by done. set_solver. }
  split; [unfold R2; simpl; by rewrite lookup_insert_eq|].
  split.
  { unfold R2. rewrite register_component_components.
    rewrite decide_True by done. rewrite dom_insert. set_solver. }
  split.
  { unfold R2. rewrite register_component_by_type.
    rewrite decide_True by done. set_solver. }
  split.
  { apply elem_of_dom in Hin1 as [ds Hds].
    destruct (Hg2 _ _ _ Hds) as (ds' & Hds' & _). apply elem_of_dom. eauto. }
  split; [by apply Ht2|].
  split.
  { intros g k [ds Hds]%elem_of_dom.
    destruct (Hg1 _ _ _ Hds) as (ds1 & Hds1 & _).
    destruct (Hg2 _ _ _ Hds1) as (ds2 & Hds2 & _). apply elem_of_dom. eauto. }
  split.
  { intros g k d Hd. destruct (components_of R g !! k) as [ds|] eqn:Hds;
      [|set_solver].
    destruct (Hg1 _ _ _ Hds) as (ds1 & Hds1 & Hsub1).
    destruct (Hg2 _ _ _ Hds1) as (ds2 & Hds2 & Hsub2).
    rewrite Hds2. simpl in *. set_solver. }
  intros t k Hk. by apply Ht2, Ht1.
Qed.

End registry_indices.

(** ** The dependents index *)

Section dependents_index.

Context {K : Type} `{Countable K}.
Context {T : Type} `{Countable T}.
Context {G : Type} `{Countable G}.
Context {O : Type} `{Countable O}.

Implicit Types (R : @Registry K _ _ T _ _ G _ _ O _ _).

Lemma add_dependents_frame (c : K) (l : list K) R :
  let R' := foldr (λ d R, add_dependent d c R) R l in
  DEPENDENCIES R' = DEPENDENCIES R ∧ DELEGATES R' = DELEGATES R ∧
  COMPONENTS R' = COMPONENTS R ∧ COMPONENTS_BY_TYPE R' = COMPONENTS_BY_TYPE R ∧
  IGNORE R' = IGNORE R ∧ TYPE_OBSERVERS R' = TYPE_OBSERVERS R.
Proof. induction l as [|d l IH]; simpl; [done|]. apply IH. Qed.

Lemma add_dependents_fold (c : K) (l : list K) R (d : K) :
  dependents_of (foldr (λ d R, add_dependent d c R) R l) d
  = dependents_of R d ∪ (if decide (d ∈ l) then {[c]} else ∅).
Proof.
  induction l as [|x l IH]; cbn [foldr].
  - destruct (decide (d ∈ [])) as [Hin|_];
      [by apply not_elem_of_nil in Hin | by rewrite union_empty_r_L].
  - unfold dependents_of in *. cbn [DEPENDENTS add_dependent].
    destruct (decide (x = d)) as [->|Hne].
    + rewrite lookup_insert_eq. cbn [default]. rewrite IH.
      destruct (decide (d ∈ d :: l)) as [_|Hn];
        [|exfalso; apply Hn, list_elem_of_here].
      destruct (decide (d ∈ l)); set_solver.
    + rewrite lookup_insert_ne by done. rewrite IH.
      destruct (decide (d ∈ l)) as [Hin|Hin];
        destruct (decide (d ∈ x :: l)) as [Hin'|Hin']; try done.
      * exfalso. apply Hin'. by apply list_elem_of_further.
      * apply elem_of_cons in Hin' as [?|?]; congruence.
Qed.

End dependents_index.

(** ** Sequences of registrations *)

Section registration.

Context {K : Type} `{Countable K}.
Context {T : Type} `{Countable T}.
Context {G : Type} `{Countable G}.
Context {O : Type} `{Countable O}.

Variable get_name : K → string.
Variable invoke : K → @arguments K _ _ T _ _ O _ _ → @result K value.
Variable get_module_name : K → option string.
Variable get_base_module_name : K → option string.

Implicit Types (R : @Registry K _ _ T _ _ G _ _ O _ _).
Implicit Types (r : @registration K _ _ T _ _ G O _ _).

Local Abbreviation register :=
  (register get_name invoke get_module_name get_base_module_name).
Local Abbreviation register_all :=
  (register_all get_name invoke get_module_name get_base_module_name).

Lemma register_dependencies r R (c : K) :
  dependencies_of (register r R) c
  = if decide (c = reg_func r) then reg_dependencies r
    else dependencies_of R c.
Proof.
  unfold dependencies_of, register, decorate, new_Delegate. simpl.
  destruct (add_dependents_frame (reg_func r)
              (elements (delegate_dependencies (reg_requires r) (reg_optional r)))
              R) as (-> & _).
  destruct (decide (c = reg_func r)) as [->|Hne].
  - by rewrite lookup_insert_eq.
  - by rewrite lookup_insert_ne.
Qed.

Lemma register_dependents r R (d : K) :
  dependents_of (register r R) d
  = dependents_of R d
    ∪ (if decide (d ∈ reg_dependencies r) then {[reg_func r]} else ∅).
Proof.
  unfold register, decorate, new_Delegate. simpl.
  unfold dependents_of at 1. simpl. fold (dependents_of
    (foldr (λ d R, add_dependent d (reg_func r) R) R
       (elements (delegate_dependencies (reg_requires r) (reg_optional r)))) d).
  rewrite add_dependents_fold. unfold reg_dependencies.
  destruct (decide (d ∈ delegate_dependencies (reg_requires r) (reg_optional r))).
  - by rewrite decide_True by (by apply elem_of_elements).
  - by rewrite decide_False by (by rewrite elem_of_elements).
Qed.

Lemma register_delegates r R :
  dom (DELEGATES (register r R)) = {[reg_func r]} ∪ dom (DELEGATES R).
Proof.
  unfold register, decorate, new_Delegate. simpl.
  destruct (add_dependents_frame (reg_func r)
              (elements (delegate_dependencies (reg_requires r) (reg_optional r)))
              R) as (_ & -> & _).
  by rewrite dom_insert_L.
Qed.

Lemma register_all_snoc regs r R :
  register_all (regs ++ [r]) R = register r (register_all regs R).
Proof. exact (foldl_snoc (λ R r, register r R) R regs r). Qed.

(** What the indices hold after a sequence of registrations. *)
Lemma register_all_indices regs :
  let R := register_all regs empty_registry in
  (∀ c, c ∈ dom (DELEGATES R) ↔ ∃ r, r ∈ regs ∧ reg_func r = c) ∧
  (∀ c d, c ∈ dependents_of R d ↔
          ∃ r, r ∈ regs ∧ reg_func r = c ∧ d ∈ reg_dependencies r) ∧
  (∀ c, dependencies_of R c ≠ ∅ ∨ c ∈ dom (DELEGATES R) →
        ∃ r, r ∈ regs ∧ reg_func r = c ∧
             dependencies_of R c = reg_dependencies r).
Proof.
  induction regs as [|r regs IH] using rev_ind.
  - simpl. split; [|split].
    + intros c. rewrite dom_empty_L. split; [set_solver|].
      intros (r & Hr & _). by apply not_elem_of_nil in Hr.
    + intros c d. unfold dependents_of. simpl. rewrite lookup_empty. simpl.
      split; [set_solver|]. intros (r & Hr & _). by apply not_elem_of_nil in Hr.
    + intros c [Hc|Hc].
      * unfold dependencies_of in Hc. simpl in Hc. by rewrite lookup_empty in Hc.
      * simpl in Hc. rewrite dom_empty_L in Hc. set_solver.
  - cbv zeta in *. rewrite register_all_snoc.
    destruct IH as (IHd & IHt & IHs).
    set (R := register_all regs empty_registry) in *.
    split; [|split].
    + intros c. rewrite register_delegates, elem_of_union, IHd.
      rewrite elem_of_singleton. split.
      * intros [->|(r' & Hr' & Hf)].
        -- exists r. split; [set_solver|done].
        -- exists r'. split; [set_solver|done].
      * intros (r' & [Hr'|Hr']%elem_of_app & Hf).
        -- right. eauto.
        -- apply list_elem_of_singleton in Hr' as ->. by left.
    + intros c d. rewrite register_dependents, elem_of_union, IHt. split.
      * intros [(r' & Hr' & Hf)|Hd].
        -- exists r'. split; [set_solver|done].
        -- destruct (decide (d ∈ reg_dependencies r)); [|set_solver].
           apply elem_of_singleton in Hd as ->.
           exists r. split; [set_solver|done].
      * intros (r' & [Hr'|Hr']%elem_of_app & Hf & Hd).
        -- left. eauto.
        -- apply list_elem_of_singleton in Hr' as ->. right.
           rewrite decide_True by done. set_solver.
    + intros c Hc. rewrite register_dependencies in *.
      destruct (decide (c = reg_func r)) as [->|Hne].
      * exists r. split; [set_solver|done].
      * destruct (IHs c) as (r' & Hr' & Hf & Hd).
        { destruct Hc as [Hc|Hc]; [by left|right].
          rewrite register_delegates in Hc. set_solver. }
        exists r'. split; [set_solver|done].
Qed.

(** C4 (amended).  After any sequence of registrations, every dependency
    of a component lists the component among its dependents.  Conversely, a
    component is among the dependents of [d] exactly when some registration
    of that component in the sequence declared [d]; so the two indices
    mirror each other on every registered component whose registrations
    all declare the same dependency set. *)
Theorem registrations_mirror regs :
  let R := register_all regs empty_registry in
  (∀ c d, d ∈ dependencies_of R c → c ∈ dependents_of R d) ∧
  (∀ c d, c ∈ dependents_of R d ↔
          ∃ r, r ∈ regs ∧ reg_func r = c ∧ d ∈ reg_dependencies r) ∧
  (∀ c,
     (∀ r1 r2, r1 ∈ regs → r2 ∈ regs → reg_func r1 = c → reg_func r2 = c →
               reg_dependencies r1 = reg_dependencies r2) →
     c ∈ dom (DELEGATES R) →
     ∀ d, d ∈ dependencies_of R c ↔ c ∈ dependents_of R d).
Proof.
  intros R. destruct (register_all_indices regs) as (Hd & Ht & Hs).
  fold R in Hd, Ht, Hs.
  assert (∀ c d, d ∈ dependencies_of R c → c ∈ dependents_of R d) as Hfw.
  { intros c d Hin. destruct (Hs c) as (r & Hr & Hf & Heq); [left; set_solver|].
    apply Ht. exists r. rewrite <- Heq. done. }
  split; [exact Hfw|]. split; [exact Ht|].
  intros c Hsame Hreg d. split; [apply Hfw|].
  intros (r' & Hr' & Hf' & Hd')%Ht.
  destruct (Hs c) as (r & Hr & Hf & Heq); [by right|].
  rewrite Heq, (Hsame r r' Hr Hr' Hf Hf'). done.
Qed.

End registration.

(** ** Topological ordering *)

Section ordering.

Context {K : Type} `{Countable K}.

Implicit Types (data g : gmap K (gset K)).

Lemma ready_spec data (c : K) : c ∈ ready data ↔ data !! c = Some ∅.
Proof.
  unfold ready. rewrite elem_of_dom. split.
  - intros [ds [Hds He]%map_lookup_filter_Some]. simpl in He. by subst.
  - intros Hc. exists ∅. by apply map_lookup_filter_Some.
Qed.

Lemma ready_subseteq data : ready data ⊆ dom data.
Proof. intros c Hc%ready_spec. apply elem_of_dom. eauto. Qed.

Lemma remove_ordered_lookup (ordered : gset K) data (c : K) :
  remove_ordered ordered data !! c
  = if decide (c ∈ ordered) then None
    else (λ dep, dep ∖ ordered) <$> data !! c.
Proof.
  unfold remove_ordered. rewrite lookup_fmap.
  destruct (decide (c ∈ ordered)) as [Hin|Hin].
  - rewrite (proj2 (map_lookup_filter_None _ _ _)); [done|].
    right. intros ds _. simpl. by intros ?.
  - destruct (data !! c) as [ds|] eqn:Hc.
    + by rewrite (map_lookup_filter_Some_2 _ _ _ _ Hc Hin).
    + rewrite (proj2 (map_lookup_filter_None _ _ _)); [done|]. by left.
Qed.

Lemma remove_ordered_dom (ordered : gset K) data :
  dom (remove_ordered ordered data) = dom data ∖ ordered.
Proof.
  apply set_eq. intros c. rewrite elem_of_difference, !elem_of_dom.
  rewrite remove_ordered_lookup.
  destruct (decide (c ∈ ordered)) as [Hin|Hin].
  - split; [by intros [? ?] | by intros [_ ?]].
  - rewrite fmap_is_Some. tauto.
Qed.

Lemma remove_ordered_size data :
  ready data ≠ ∅ → size (remove_ordered (ready data) data) < size data.
Proof.
  intros Hne. rewrite <- !size_dom, remove_ordered_dom.
  rewrite size_difference by apply ready_subseteq.
  pose proof (subseteq_size _ _ (ready_subseteq data)) as Hle.
  assert (size (ready data) ≠ 0) as Hpos.
  { rewrite size_non_empty_iff. by intros ?%leibniz_equiv. }
  lia.
Qed.

Lemma remove_ordered_depends (ordered : gset K) data (c d : K) :
  depends_on (remove_ordered ordered data) c d → depends_on data c d.
Proof.
  intros (ds & Hc & Hd). rewrite remove_ordered_lookup in Hc.
  destruct (decide (c ∈ ordered)); [done|].
  destruct (data !! c) as [ds'|] eqn:Hc'; [|done].
  simpl in Hc. injection Hc as <-. exists ds'. split; [done|set_solver].
Qed.

Lemma remove_ordered_closed (ordered : gset K) data :
  closed data → closed (remove_ordered ordered data).
Proof.
  intros Hcl c ds d Hc Hd. rewrite remove_ordered_lookup in Hc.
  destruct (decide (c ∈ ordered)); [done|].
  destruct (data !! c) as [ds'|] eqn:Hc'; [|done].
  simpl in Hc. injection Hc as <-.
  rewrite remove_ordered_dom. apply elem_of_difference in Hd as [Hd Hn].
  apply elem_of_difference. split; [by eapply Hcl|done].
Qed.

Lemma tc_depends_mono (R1 R2 : relation K) (c d : K) :
  (∀ x y, R1 x y → R2 x y) → tc R1 c d → tc R2 c d.
Proof.
  intros Hsub. induction 1 as [x y Hxy|x y z Hxy _ IH].
  - apply tc_once. by apply Hsub.
  - eapply tc_l; [by apply Hsub|exact IH].
Qed.

(** In a finite non-empty set where every element has a successor inside
    the set, some element reaches itself. *)
Lemma successor_cycle (S : gset K) :
  ∀ R : relation K,
    S ≠ ∅ → (∀ x, x ∈ S → ∃ y, y ∈ S ∧ R x y) → ∃ x, x ∈ S ∧ tc R x x.
Proof.
  induction S as [|x X Hx IH] using set_ind_L; intros R Hne Hsucc; [done|].
  destruct (Hsucc x) as (w & Hw & Hxw); [set_solver|].
  destruct (decide (w = x)) as [->|Hwx].
  { exists x. split; [set_solver|by apply tc_once]. }
  assert (w ∈ X) as HwX by set_solver.
  set (R' := λ a b, R a b ∨ (R a x ∧ R x b)).
  destruct (IH R') as (a & Ha & Hcyc).
  - intros ->. set_solver.
  - intros a Ha. destruct (Hsucc a) as (b & Hb & Hab); [set_solver|].
    destruct (decide (b = x)) as [->|Hbx].
    + exists w. split; [done|]. right. done.
    + exists b. split; [set_solver|]. by left.
  - exists a. split; [set_solver|].
    assert (∀ a b, tc R' a b → tc R a b) as Hsub; [|by apply Hsub].
    clear. intros a b Hab.
    induction Hab as [a b [Hab|[Hax Hxb]]|a b c [Hab|[Hax Hxb]] _ IHc].
    + by apply tc_once.
    + eapply tc_l; [exact Hax|by apply tc_once].
    + eapply tc_l; [exact Hab|exact IHc].
    + eapply tc_l; [exact Hax|]. eapply tc_l; [exact Hxb|exact IHc].
Qed.

(** A closed graph with components left and none ready has a cycle. *)
Lemma stuck_cyclic data :
  closed data → data ≠ ∅ → ready data = ∅ → cyclic data.
Proof.
  intros Hcl Hne Hready.
  destruct (successor_cycle (dom data) (depends_on data)) as (c & _ & Hc).
  - by intros ?%dom_empty_iff_L.
  - intros c [ds Hds]%elem_of_dom.
    destruct (decide (ds = ∅)) as [->|Hds'].
    { apply ready_spec in Hds. set_solver. }
    apply set_choose_L in Hds' as [d Hd].
    exists d. split; [by eapply Hcl|]. by exists ds.
  - by exists c.
Qed.

Lemma ready_empty_graph : ready (∅ : gmap K (gset K)) = ∅.
Proof.
  apply set_eq. intros c. rewrite ready_spec, lookup_empty. set_solver.
Qed.

(** With fuel for every key of a closed graph, the layering is rejected
    only when the graph has a cycle. *)
Lemma toposort_rejects_cyclic (fuel : nat) data (e : @exn K) :
  size data ≤ fuel → closed data → toposort fuel data = Raise e →
  cyclic data.
Proof.
  revert data e. induction fuel as [|fuel IH]; intros data e Hsize Hcl; simpl.
  - assert (data = ∅) as -> by (apply map_size_empty_iff; lia).
    rewrite ready_empty_graph. by rewrite !decide_True by done.
  - destruct (decide (ready data = ∅)) as [Hr|Hr].
    + destruct (decide (data = ∅)) as [_|Hne]; [done|].
      intros _. by apply stuck_cyclic.
    + destruct (toposort fuel (remove_ordered (ready data) data)) as [?|e']
        eqn:Ht; simpl; [done|]. intros _.
      destruct (IH (remove_ordered (ready data) data) e') as [c Hc].
      * pose proof (remove_ordered_size data Hr). lia.
      * by apply remove_ordered_closed.
      * exact Ht.
      * exists c. eapply tc_depends_mono; [|exact Hc].
        apply remove_ordered_depends.
Qed.

Lemma toposort_raises (fuel : nat) data (e : @exn K) :
  toposort fuel data = Raise e → e = CircularDependencyError.
Proof.
  revert data. induction fuel as [|fuel IH]; intros data; simpl.
  - repeat case_decide; congruence.
  - repeat case_decide; try congruence.
    destruct (toposort fuel (remove_ordered (ready data) data)) eqn:Ht;
      simpl; [done|]. intros [= <-]. by eapply IH.
Qed.

Lemma before_app_r (l1 l2 : list K) (d c : K) :
  before l2 d c → before (l1 ++ l2) d c.
Proof.
  intros (i & j & Hi & Hj & Hlt). exists (length l1 + i), (length l1 + j).
  rewrite !lookup_app_r by lia.
  replace (length l1 + i - length l1) with i by lia.
  replace (length l1 + j - length l1) with j by lia.
  split; [done|]. split; [done|lia].
Qed.

Lemma before_app_split (l1 l2 : list K) (d c : K) :
  d ∈ l1 → c ∈ l2 → before (l1 ++ l2) d c.
Proof.
  intros [i Hi]%list_elem_of_lookup [j Hj]%list_elem_of_lookup.
  pose proof (lookup_lt_Some _ _ _ Hi).
  exists i, (length l1 + j). rewrite lookup_app_l by done.
  rewrite lookup_app_r by lia.
  replace (length l1 + j - length l1) with j by lia.
  split; [done|]. split; [done|lia].
Qed.

(** When the layers are produced, their concatenation lists every key of
    the graph once, each after its dependencies. *)
Lemma toposort_sound (fuel : nat) data (layers : list (gset K)) :
  toposort fuel data = Ok layers →
  let l := concat (elements <$> layers) in
  NoDup l ∧ (∀ c, c ∈ l ↔ c ∈ dom data) ∧
  (∀ c d, depends_on data c d → before l d c).
Proof.
  revert data layers.
  assert (∀ layers : list (gset K), layers = [] →
            let l := concat (elements <$> layers) in
            NoDup l ∧ (∀ c, c ∈ l ↔ c ∈ dom (∅ : gmap K (gset K))) ∧
            (∀ c d, depends_on (∅ : gmap K (gset K)) c d → before l d c))
    as Hempty.
  { intros layers ->. simpl. split; [constructor|]. split.
    - intros c. rewrite dom_empty_L. set_solver.
    - intros c d (ds & Hc & _). by rewrite lookup_empty in Hc. }
  induction fuel as [|fuel IH]; intros data layers; simpl.
  - destruct (decide (ready data = ∅)) as [Hr|Hr]; [|done].
    destruct (decide (data = ∅)) as [->|Hne]; [|done].
    intros [= <-]. by apply Hempty.
  - destruct (decide (ready data = ∅)) as [Hr|Hr].
    { destruct (decide (data = ∅)) as [->|Hne]; [|done].
      intros [= <-]. by apply Hempty. }
    destruct (toposort fuel (remove_ordered (ready data) data)) as [rest|]
      eqn:Ht; simpl; [|done].
    intros [= <-]. simpl.
    destruct (IH _ _ Ht) as (Hnd & Hdom & Hord). simpl in Hnd, Hdom, Hord.
    rewrite remove_ordered_dom in Hdom.
    split; [|split].
    + apply NoDup_app. split; [apply NoDup_elements|]. split; [|done].
      intros c Hc%elem_of_elements Hc'%Hdom. set_solver.
    + intros c. rewrite elem_of_app, elem_of_elements, Hdom.
      pose proof (ready_subseteq data).
      destruct (decide (c ∈ ready data)); set_solver.
    + intros c d (ds & Hc & Hd).
      assert (c ∉ ready data) as Hcr.
      { intros Hcr%ready_spec. rewrite Hc in Hcr. set_solver. }
      assert (c ∈ concat (elements <$> rest)) as Hcl.
      { apply Hdom. apply elem_of_difference. split; [|done].
        apply elem_of_dom. eauto. }
      destruct (decide (d ∈ ready data)) as [Hdr|Hdr].
      * apply before_app_split; [by apply elem_of_elements|done].
      * apply before_app_r, Hord. exists (ds ∖ ready data).
        rewrite remove_ordered_lookup, decide_False by done.
        rewrite Hc. split; [done|set_solver].
Qed.

Lemma elem_of_dependency_sets g (d : K) :
  d ∈ ⋃ (snd <$> map_to_list g) ↔ ∃ c, depends_on g c d.
Proof.
  rewrite elem_of_union_list. split.
  - intros (ds & [[c ds'] [-> Hin]]%list_elem_of_fmap & Hd).
    apply elem_of_map_to_list in Hin. exists c, ds'. done.
  - intros (c & ds & Hc & Hd). exists ds. split; [|done].
    apply list_elem_of_fmap. exists (c, ds). split; [done|].
    by apply elem_of_map_to_list.
Qed.

Lemma add_extra_items_lookup g (c : K) :
  add_extra_items g !! c
  = match g !! c with
    | Some ds => Some ds
    | None =>
        if decide (c ∈ ⋃ (snd <$> map_to_list g)) then Some ∅ else None
    end.
Proof.
  unfold add_extra_items. rewrite lookup_union.
  destruct (g !! c) as [ds|] eqn:Hc.
  - by destruct (gset_to_gmap _ _ !! c).
  - rewrite lookup_gset_to_gmap. rewrite (left_id None _).
    assert (c ∉ dom g) by (by apply not_elem_of_dom).
    destruct (decide (c ∈ ⋃ (snd <$> map_to_list g))) as [Hin|Hin].
    + rewrite option_guard_True; [done|set_solver].
    + rewrite option_guard_False; [done|set_solver].
Qed.

Lemma add_extra_items_dom g : dom (add_extra_items g) = nodes g.
Proof.
  unfold add_extra_items, nodes. rewrite dom_union_L, dom_gset_to_gmap.
  apply set_eq. intros c. destruct (decide (c ∈ dom g)); set_solver.
Qed.

Lemma add_extra_items_depends g (c d : K) :
  depends_on (add_extra_items g) c d ↔ depends_on g c d.
Proof.
  unfold depends_on. rewrite add_extra_items_lookup. split.
  - intros (ds & Hc & Hd). destruct (g !! c) as [ds'|]; [by eauto|].
    case_decide; [|done]. injection Hc as <-. set_solver.
  - intros (ds & Hc & Hd). rewrite Hc. eauto.
Qed.

Lemma add_extra_items_closed g : closed (add_extra_items g).
Proof.
  intros c ds d Hc Hd. rewrite add_extra_items_dom. unfold nodes.
  apply elem_of_union. right. apply elem_of_dependency_sets.
  exists c. apply add_extra_items_depends. by exists ds.
Qed.

Lemma add_extra_items_cyclic g : cyclic (add_extra_items g) ↔ cyclic g.
Proof.
  split; intros [c Hc]; exists c; (eapply tc_depends_mono; [|exact Hc]);
    intros x y; apply add_extra_items_depends.
Qed.

(** A duplicate-free list in which every edge points backwards admits no
    cycle. *)
Lemma backward_edges_acyclic (R : relation K) (l : list K) :
  NoDup l → (∀ c d, R c d → before l d c) → ∀ c, ¬ tc R c c.
Proof.
  intros Hnd Hback.
  assert (∀ c d, tc R c d → before l d c) as Htc.
  { intros c d Hcd. induction Hcd as [c d Hcd|c e d Hce _ IH];
      [by apply Hback|].
    destruct (Hback _ _ Hce) as (i1 & j1 & Hi1 & Hj1 & Hlt1).
    destruct IH as (i2 & j2 & Hi2 & Hj2 & Hlt2).
    pose proof (NoDup_lookup _ _ _ _ Hnd Hi1 Hj2) as ->.
    exists i2, j1. split; [done|]. split; [done|lia]. }
  intros c (i & j & Hi & Hj & Hlt)%Htc.
  pose proof (NoDup_lookup _ _ _ _ Hnd Hi Hj). lia.
Qed.

(** [run_order] always answers: with a topological order when the graph
    has no cycle, with the cycle error when it has one. *)
Lemma run_order_decides g :
  match run_order g with
  | Ok l => acyclic g ∧ topological_order g l
  | Raise e => cyclic g ∧ e = CircularDependencyError
  end.
Proof.
  unfold run_order, toposort_flatten.
  destruct (toposort (size (add_extra_items g)) (add_extra_items g))
    as [layers|e] eqn:Ht; simpl.
  - destruct (toposort_sound _ _ _ Ht) as (Hnd & Hdom & Hord).
    simpl in Hnd, Hdom, Hord.
    assert (∀ c d, depends_on g c d → before (concat (elements <$> layers)) d c)
      as Hback by (intros c d Hcd; by apply Hord, add_extra_items_depends).
    split.
    + intros [c Hc]. by eapply backward_edges_acyclic.
    + split; [done|]. split; [|done].
      intros c. by rewrite Hdom, add_extra_items_dom.
  - split; [|by eapply toposort_raises].
    apply add_extra_items_cyclic.
    eapply toposort_rejects_cyclic; [|apply add_extra_items_closed|exact Ht].
    done.
Qed.

(** C6.  For an acyclic graph [run_order] returns a list that holds every
    component of the graph once, each after all the components it depends
    on in the graph; for a graph with a cycle the call raises the cycle
    error. *)
Theorem run_order_topological g :
  (acyclic g → ∃ l, run_order g = Ok l ∧ topological_order g l) ∧
  (cyclic g → run_order g = Raise CircularDependencyError).
Proof.
  pose proof (run_order_decides g) as Hd.
  destruct (run_order g) as [l|e].
  - destruct Hd as [Hac Hto]. split; [eauto|]. intros Hc. by destruct Hac.
  - destruct Hd as [Hc ->]. split; [|done]. intros Hac. by destruct Hac.
Qed.

End ordering.

(** ** The run loop *)

Section run_loop.

Context {K : Type} `{Countable K}.
Context {T : Type} `{Countable T}.
Context {G : Type} `{Countable G}.
Context {O : Type} `{Countable O}.

Variable ANY_TYPE : T.
Variable get_name : K → string.
Variable observe : O → K → @Broker K _ _ T _ _ O _ _ → option (@exn K).

Implicit Types (w : @World K _ _ T _ _ O _ _).
Implicit Types (b : @Broker K _ _ T _ _ O _ _).
Implicit Types (R : @Registry K _ _ T _ _ G _ _ O _ _).

Local Abbreviation fire_observers := (fire_observers ANY_TYPE observe).

Lemma tried_observer_events (c : K) b (l : list O) :
  tried (flat_map (observer_events observe c b) l) = [].
Proof.
  induction l as [|o l IH]; [done|]. simpl.
  unfold tried in *. simpl. destruct (observe o c b); simpl; exact IH.
Qed.

(** [fire_observers] returns normally and touches neither the recorded
    outcomes nor the [Trying] records. *)
Lemma fire_observers_frame R (c : K) w :
  ∃ w', fire_observers R c w = (Ok (), w') ∧
        instances (broker w') = instances (broker w) ∧
        missing_requirements (broker w') = missing_requirements (broker w) ∧
        exceptions (broker w') = exceptions (broker w) ∧
        exec_times (broker w') = exec_times (broker w) ∧
        tried (events w') = tried (events w).
Proof.
  destruct (get_component_type R c) as [t|] eqn:Ht.
  - eexists. split; [by apply fire_observers_typed|]. simpl.
    unfold with_any_entry.
    destruct (observers (broker w) !! ANY_TYPE); simpl;
      (repeat split; [..|unfold tried; rewrite omap_app;
         fold (tried (events w));
         match goal with
         | |- context [omap _ (flat_map (observer_events _ ?c ?b) ?l)] =>
             change (omap _ (flat_map (observer_events observe c b) l))
               with (tried (flat_map (observer_events observe c b) l))
         end;
         by rewrite tried_observer_events, app_nil_r]).
  - exists w. split; [by apply fire_observers_untyped|done].
Qed.

Lemma run_finally_frame R (c : K) w :
  ∃ w', run_finally ANY_TYPE observe R c w = (Ok (), w') ∧
        instances (broker w') = instances (broker w) ∧
        missing_requirements (broker w') = missing_requirements (broker w) ∧
        exceptions (broker w') = exceptions (broker w) ∧
        exec_times (broker w') = exec_times (broker w) ∪ {[c]} ∧
        tried (events w') = tried (events w).
Proof.
  unfold run_finally, mbind, get_broker, put_broker.
  match goal with
  | |- context [fire_observers R c ?w0] =>
      destruct (fire_observers_frame R c w0) as (w' & -> & Hi & Hm & He & Ht & Htr)
  end.
  exists w'. simpl in *. by rewrite Hi, Hm, He, Ht, Htr.
Qed.

Lemma tried_snoc_trying (evs : list (@event K _ _ T _ _ O _ _)) (c : K) :
  tried (evs ++ [Trying c]) = tried evs ++ [c].
Proof. unfold tried. by rewrite omap_app. Qed.

(** The [try] block with its [except] clauses: always handled, and what it
    records follows the outcome of the guarded call. *)
Lemma run_try_except_effect R (c : K) w :
  ∃ w',
    try_except (run_try get_name R c) (run_except c) w = (Ok (), w') ∧
    exec_times (broker w') = exec_times (broker w) ∧
    match attempt R (broker w) c with
    | None =>
        instances (broker w') = instances (broker w) ∧
        missing_requirements (broker w') = missing_requirements (broker w) ∧
        exceptions (broker w') = exceptions (broker w) ∧
        tried (events w') = tried (events w)
    | Some r =>
        tried (events w') = tried (events w) ++ [c] ∧
        match r with
        | Ok v =>
            instances (broker w') = <[c := v]> (instances (broker w)) ∧
            missing_requirements (broker w') = missing_requirements (broker w) ∧
            exceptions (broker w') = exceptions (broker w)
        | Raise (MissingRequirements mr) =>
            instances (broker w') = instances (broker w) ∧
            missing_requirements (broker w')
            = <[c := mr]> (missing_requirements (broker w)) ∧
            exceptions (broker w') = exceptions (broker w)
        | Raise SkipComponent =>
            instances (broker w') = instances (broker w) ∧
            missing_requirements (broker w') = missing_requirements (broker w) ∧
            exceptions (broker w') = exceptions (broker w)
        | Raise ex =>
            instances (broker w') = instances (broker w) ∧
            missing_requirements (broker w') = missing_requirements (broker w) ∧
            exceptions (broker w')
            = <[c := default [] (exceptions (broker w) !! c) ++ [ex]]>
                (exceptions (broker w))
        end
    end.
Proof.
  unfold try_except, run_try, attempt, mbind, get_broker.
  destruct (broker_contains (broker w) c) eqn:Hin; simpl.
  { exists w. by destruct w. }
  destruct (DELEGATES R !! c) as [delegate|]; simpl; [|exists w; by destruct w].
  unfold lift.
  destruct (call_delegate (IGNORE R) delegate (broker w)) as [v|e]; simpl.
  - unfold broker_setitem, mbind, get_broker. simpl. rewrite Hin.
    unfold put_broker. simpl. eexists. split; [done|]. simpl.
    by rewrite tried_snoc_trying.
  - destruct e; simpl; unfold add_exception, mbind, get_broker, put_broker, ret;
      simpl; (eexists; split; [done|]); simpl; by rewrite tried_snoc_trying.
Qed.

(** The effect of one iteration of the loop. *)
Lemma run_component_effect R (c : K) w :
  ∃ w',
    run_component ANY_TYPE get_name observe R c w = (Ok (), w') ∧
    match attempt R (broker w) c with
    | None =>
        instances (broker w') = instances (broker w) ∧
        missing_requirements (broker w') = missing_requirements (broker w) ∧
        exceptions (broker w') = exceptions (broker w) ∧
        tried (events w') = tried (events w)
    | Some r =>
        tried (events w') = tried (events w) ++ [c] ∧
        match r with
        | Ok v =>
            instances (broker w') = <[c := v]> (instances (broker w)) ∧
            missing_requirements (broker w') = missing_requirements (broker w) ∧
            exceptions (broker w') = exceptions (broker w)
        | Raise (MissingRequirements mr) =>
            instances (broker w') = instances (broker w) ∧
            missing_requirements (broker w')
            = <[c := mr]> (missing_requirements (broker w)) ∧
            exceptions (broker w') = exceptions (broker w)
        | Raise SkipComponent =>
            instances (broker w') = instances (broker w) ∧
            missing_requirements (broker w') = missing_requirements (broker w) ∧
            exceptions (broker w') = exceptions (broker w)
        | Raise ex =>
            instances (broker w') = instances (broker w) ∧
            missing_requirements (broker w') = missing_requirements (broker w) ∧
            exceptions (broker w')
            = <[c := default [] (exceptions (broker w) !! c) ++ [ex]]>
                (exceptions (broker w))
        end
    end.
Proof.
  unfold run_component, try_finally.
  destruct (run_try_except_effect R c w) as (w1 & -> & _ & Heff).
  destruct (run_finally_frame R c w1) as (w2 & -> & Hi & Hm & He & _ & Htr).
  exists w2. split; [done|]. rewrite Hi, Hm, He, Htr. exact Heff.
Qed.

Lemma attempt_None R b (c : K) :
  attempt R b c = None ↔ c ∈ dom (instances b) ∨ c ∉ dom (DELEGATES R).
Proof.
  unfold attempt, broker_contains. case_bool_decide as Hin.
  - split; [by left|done].
  - rewrite fmap_None, <- not_elem_of_dom. split; [by right|].
    by intros [?|?].
Qed.

Lemma same_records_refl (b : @Broker K _ _ T _ _ O _ _) (k : K) :
  same_records b b k.
Proof. by unfold same_records. Qed.

Lemma same_records_trans (b1 b2 b3 : @Broker K _ _ T _ _ O _ _) (k : K) :
  same_records b1 b2 k → same_records b2 b3 k → same_records b1 b3 k.
Proof.
  unfold same_records. intros (-> & -> & ->) (-> & -> & ->). done.
Qed.

Lemma same_records_unrecorded (b1 b2 : @Broker K _ _ T _ _ O _ _) (k : K) :
  same_records b1 b2 k → unrecorded b1 k → unrecorded b2 k.
Proof.
  unfold same_records, unrecorded. rewrite !not_elem_of_dom.
  intros (-> & -> & ->). done.
Qed.

(** The disposition of [k] only reads what the broker records for [k]. *)
Lemma same_records_disposition R
    (at_turn b1 b2 : @Broker K _ _ T _ _ O _ _) (k : K) :
  same_records b1 b2 k →
  exclusive_disposition R at_turn b1 k → exclusive_disposition R at_turn b2 k.
Proof.
  unfold same_records, exclusive_disposition. cbv zeta.
  rewrite !elem_of_dom. intros (-> & -> & ->). done.
Qed.

(** Read from the outcome: the disposition is a function of what the
    guarded call did, so a returned value is never left unrecorded and a
    skipped component never has an entry. *)
Lemma exclusive_disposition_by_outcome R
    (at_turn b : @Broker K _ _ T _ _ O _ _) (c : K) :
  exclusive_disposition R at_turn b c →
  match attempt R at_turn c with
  | Some (Ok v) =>
      instances b !! c = Some v ∧
      (c ∉ dom (missing_requirements b)) ∧ (c ∉ dom (exceptions b))
  | Some (Raise (MissingRequirements mr)) =>
      missing_requirements b !! c = Some mr ∧
      (c ∉ dom (instances b)) ∧ (c ∉ dom (exceptions b))
  | Some (Raise SkipComponent) | None => unrecorded b c
  | Some (Raise ex) =>
      exceptions b !! c = Some [ex] ∧
      (c ∉ dom (instances b)) ∧ (c ∉ dom (missing_requirements b))
  end.
Proof.
  unfold exclusive_disposition, skipped, unrecorded. cbv zeta.
  intros [(_ & Hm & He & v & -> & Hv)|[(Hi & _ & He & mr & -> & Hmr)
         |[(Hi & Hm & _ & ex & -> & Hs & Hmr & Hex)
         |(Hi & Hm & He & [->|Hnone])]]]; try done.
  - destruct ex; try done. by destruct (Hmr requirements).
  - assert (attempt R at_turn c = None) as ->; [|done].
    unfold attempt. rewrite Hnone. by destruct (broker_contains at_turn c).
Qed.

(** One iteration, for a component that nothing is recorded for: what it
    records for the component follows the outcome of the guarded call, and
    it records nothing for any other component. *)
Lemma run_component_disposition R (c : K) w :
  unrecorded (broker w) c →
  ∃ w',
    run_component ANY_TYPE get_name observe R c w = (Ok (), w') ∧
    exclusive_disposition R (broker w) (broker w') c ∧
    ∀ k, k ≠ c → same_records (broker w) (broker w') k.
Proof.
  intros (Hi & Hm & He).
  destruct (run_component_effect R c w) as (w' & Hrun & Heff).
  exists w'. split; [done|].
  unfold exclusive_disposition, skipped, same_records. cbv zeta.
  apply not_elem_of_dom in He as Hex.
  destruct (attempt R (broker w) c) as [[v|e]|] eqn:Hat.
  - destruct Heff as (_ & -> & -> & ->). split.
    + left. rewrite dom_insert_L, lookup_insert_eq.
      split; [apply elem_of_union_l, elem_of_singleton; done|].
      split; [done|]. split; [done|]. by exists v.
    + intros k Hk. by rewrite lookup_insert_ne.
  - destruct e as [mr| | | |];
      destruct Heff as (_ & -> & -> & ->); (split;
        [|intros k Hk; by rewrite ?lookup_insert_ne]).
    + right. left. rewrite dom_insert_L, lookup_insert_eq.
      split; [done|].
      split; [apply elem_of_union_l, elem_of_singleton; done|].
      split; [done|]. by exists mr.
    + right. right. right. repeat (split; [done|]). by left.
    + right. right. left. rewrite dom_insert_L, lookup_insert_eq, Hex.
      repeat (split; [done|]).
      split; [apply elem_of_union_l, elem_of_singleton; done|].
      eexists. repeat (split; [done|]). done.
    + right. right. left. rewrite dom_insert_L, lookup_insert_eq, Hex.
      repeat (split; [done|]).
      split; [apply elem_of_union_l, elem_of_singleton; done|].
      eexists. repeat (split; [done|]). done.
    + right. right. left. rewrite dom_insert_L, lookup_insert_eq, Hex.
      repeat (split; [done|]).
      split; [apply elem_of_union_l, elem_of_singleton; done|].
      eexists. repeat (split; [done|]). done.
  - destruct Heff as (-> & -> & -> & _). split; [|done].
    right. right. right. repeat (split; [done|]). right.
    apply attempt_None in Hat as [Hin|Hd]; [done|].
    by apply not_elem_of_dom.
Qed.

(** The loop over a duplicate-free order, started where nothing is recorded
    for its components: it finishes, leaves alone what is recorded for the
    components outside the order, and every component of the order has the
    disposition that follows the outcome of its guarded call on the broker
    left by the iterations before it. *)
Lemma for_each_run_dispositions R (l : list K) w :
  NoDup l →
  (∀ c, c ∈ l → unrecorded (broker w) c) →
  ∃ w',
    for_each l (run_component ANY_TYPE get_name observe R) w = (Ok (), w') ∧
    (∀ k, k ∉ l → same_records (broker w) (broker w') k) ∧
    ∀ c, c ∈ l →
      ∃ before after w1,
        l = before ++ c :: after ∧
        for_each before (run_component ANY_TYPE get_name observe R) w
        = (Ok (), w1) ∧
        unrecorded (broker w1) c ∧
        exclusive_disposition R (broker w1) (broker w') c.
Proof.
  revert w. induction l as [|c0 l IH]; intros w Hnd Hun.
  - exists w. split; [done|]. split; [intros; apply same_records_refl|].
    intros c Hc. by apply elem_of_nil in Hc.
  - apply NoDup_cons in Hnd as [Hc0 Hnd].
    destruct (run_component_disposition R c0 w) as (w1 & Hrun & Hd0 & Hfr0);
      [apply Hun, list_elem_of_here|].
    destruct (IH w1 Hnd) as (w' & Hloop & Hfr & Hall).
    { intros c Hc. apply (same_records_unrecorded (broker w)).
      - apply Hfr0. by intros ->.
      - by apply Hun, list_elem_of_further. }
    exists w'. split; [|split].
    + cbn [for_each]. unfold mbind. by rewrite Hrun.
    + intros k Hk. apply not_elem_of_cons in Hk as [Hk0 Hk].
      eapply same_records_trans; [by apply Hfr0|by apply Hfr].
    + intros c Hc. apply elem_of_cons in Hc as [->|Hc].
      * exists [], l, w. split; [done|]. split; [done|].
        split; [apply Hun, list_elem_of_here|].
        eapply same_records_disposition; [by apply Hfr|done].
      * destruct (Hall c Hc) as (before & after & wc & -> & Hbefore & Hunc & Hd).
        exists (c0 :: before), after, wc. split; [done|].
        split; [|done]. cbn [for_each]. unfold mbind. by rewrite Hrun.
Qed.

Lemma new_Broker_unrecorded R (c : K) :
  unrecorded (new_Broker ANY_TYPE R None) c.
Proof.
  unfold unrecorded. simpl. rewrite !dom_empty_L.
  repeat split; apply not_elem_of_empty.
Qed.

(** C5.  [run] on a new broker returns for every acyclic graph.  In the
    broker it returns, every component of the graph has exactly one
    disposition, and it is the one the run gave it: the loop reached the
    component on the broker left by its predecessors in the order, with
    nothing recorded for it yet, and either its delegate returned a value
    and that value is in [instances]; or it raised [MissingRequirements] and
    those requirements are in [missing_requirements]; or it raised another
    exception and that exception is in [exceptions]; or the component was
    skipped - the delegate raised [SkipComponent], or there is no delegate
    to call - and it is in none of the three. *)
Theorem run_exclusive_dispositions R (g : gmap K (gset K)) :
  (acyclic g → ∃ w, run ANY_TYPE get_name observe R g None = Ok w) ∧
  (∀ w, run ANY_TYPE get_name observe R g None = Ok w →
        ∀ c, c ∈ dom g →
          ∃ at_turn,
            reaches ANY_TYPE get_name observe R g c at_turn ∧
            unrecorded at_turn c ∧
            exclusive_disposition R at_turn (broker w) c).
Proof.
  unfold run, reaches. pose proof (run_order_decides g) as Hd.
  destruct (run_order g) as [order|e]; simpl.
  - destruct Hd as (_ & Hnd & Hnodes & _).
    destruct (for_each_run_dispositions R order
                (mkWorld (new_Broker ANY_TYPE R None) [])) as (w' & -> & _ & Hall).
    + done.
    + intros c _. apply new_Broker_unrecorded.
    + split; [eauto|]. intros w [= <-] c Hc.
      destruct (Hall c) as (before & after & w1 & -> & Hbefore & Hun & Hdisp).
      { apply Hnodes. unfold nodes. by apply elem_of_union_l. }
      exists (broker w1). split; [|done]. by exists before, after, w1.
  - destruct Hd as [Hc _]. split; [|done]. intros Hac. by destruct Hac.
Qed.

(** One iteration either makes no call and leaves [instances] alone, or
    calls the delegate of a component that is absent from [instances]; in
    both cases no existing entry of [instances] changes. *)
Lemma run_component_again R (c : K) w :
  ∃ w',
    run_component ANY_TYPE get_name observe R c w = (Ok (), w') ∧
    ((attempt R (broker w) c = None ∧
      instances (broker w') = instances (broker w) ∧
      tried (events w') = tried (events w)) ∨
     ((c ∉ dom (instances (broker w))) ∧ c ∈ dom (DELEGATES R) ∧
      tried (events w') = tried (events w) ++ [c] ∧
      instances (broker w) ⊆ instances (broker w') ∧
      dom (instances (broker w')) ⊆ {[c]} ∪ dom (instances (broker w)))).
Proof.
  destruct (run_component_effect R c w) as (w' & Hrun & Heff).
  exists w'. split; [done|].
  destruct (attempt R (broker w) c) as [r|] eqn:Hat.
  - right. destruct Heff as (Htr & Heff).
    assert ((c ∉ dom (instances (broker w))) ∧ c ∈ dom (DELEGATES R))
      as [Hc Hd].
    { destruct (decide (c ∈ dom (instances (broker w)))) as [Hin|Hin].
      { assert (attempt R (broker w) c = None) as Hn
          by (apply attempt_None; by left). congruence. }
      destruct (decide (c ∈ dom (DELEGATES R))) as [Hin'|Hin']; [done|].
      assert (attempt R (broker w) c = None) as Hn
        by (apply attempt_None; by right). congruence. }
    split; [done|]. split; [done|]. split; [done|].
    assert (instances (broker w') = instances (broker w) ∨
            ∃ v, instances (broker w') = <[c := v]> (instances (broker w)))
      as [->|[v ->]].
    { destruct r as [v|e]; [right; exists v; apply Heff|left].
      destruct e; apply Heff. }
    + split; [done|]. apply union_subseteq_r.
    + split; [apply insert_subseteq; by apply not_elem_of_dom|].
      by rewrite dom_insert_L.
  - left. destruct Heff as (-> & _ & _ & ->). done.
Qed.

(** A run over a duplicate-free order, from any broker: the delegates it
    invokes are those of the components of the order that have a delegate
    and are absent from [instances] at the start; the entries of
    [instances] are kept; and without any invocation [instances] is
    unchanged. *)
Lemma for_each_run_again R (l : list K) w :
  NoDup l →
  ∃ w' new,
    for_each l (run_component ANY_TYPE get_name observe R) w = (Ok (), w') ∧
    instances (broker w) ⊆ instances (broker w') ∧
    dom (instances (broker w')) ⊆ list_to_set l ∪ dom (instances (broker w)) ∧
    tried (events w') = tried (events w) ++ new ∧
    (∀ c, c ∈ new ↔
          c ∈ l ∧ (c ∉ dom (instances (broker w))) ∧ c ∈ dom (DELEGATES R)) ∧
    (new = [] → instances (broker w') = instances (broker w)).
Proof.
  revert w. induction l as [|c l IH]; intros w Hnd.
  - exists w, []. simpl. rewrite app_nil_r.
    split; [done|]. split; [done|]. split; [apply union_subseteq_r|].
    split; [done|]. split; [|done].
    intros c. split; [by intros ?%not_elem_of_nil|].
    by intros [?%not_elem_of_nil _].
  - apply NoDup_cons in Hnd as [Hc Hnd]. simpl. unfold mbind.
    destruct (run_component_again R c w) as (w1 & -> & Hstep).
    destruct (IH w1 Hnd) as (w' & new & -> & Hsub & Hdom & Htr & Hnew & Hsame).
    destruct Hstep as [(Hat & Hi & Ht)|(Hci & Hcd & Ht & Hsub1 & Hdom1)].
    + exists w', new. rewrite Hi, Ht in *.
      split; [done|]. split; [done|]. split; [clear -Hdom; set_solver|].
      split; [done|]. split; [|done].
      intros k. rewrite Hnew, elem_of_cons. split; [tauto|].
      intros ([->|Hk] & Hki & Hkd); [|done].
      apply attempt_None in Hat. tauto.
    + exists w', (c :: new). split; [done|].
      split; [by etrans|]. split; [clear -Hdom Hdom1; set_solver|].
      split; [rewrite Htr, Ht; by rewrite <- app_assoc|].
      split; [|done].
      intros k. rewrite !elem_of_cons, Hnew.
      apply subseteq_dom in Hsub1.
      split.
      * intros [->|(Hk & Hki & Hkd)]; [tauto|]. set_solver.
      * intros ([->|Hk] & Hki & Hkd); [by left|right].
        split; [done|]. split; [|done].
        intros Hin. apply Hdom1 in Hin. set_solver.
Qed.

(** C9 (amended).  A second run on the broker of a first run keeps every
    entry of [instances]; it invokes again exactly the components of the
    graph that have a delegate and are absent from [instances], those that
    failed, were skipped or missed requirements in the first run; and it is
    a no-op on [instances] that invokes nothing when every component of the
    graph that has a delegate is present. *)
Theorem rerun_keeps_instances R (g : gmap K (gset K)) w1 w2 :
  run ANY_TYPE get_name observe R g None = Ok w1 →
  run ANY_TYPE get_name observe R g (Some (broker w1)) = Ok w2 →
  instances (broker w1) ⊆ instances (broker w2) ∧
  (∀ c, c ∈ tried (events w2) ↔
        c ∈ nodes g ∧ (c ∉ dom (instances (broker w1)))
        ∧ c ∈ dom (DELEGATES R)) ∧
  ((∀ c, c ∈ nodes g → c ∈ dom (DELEGATES R) →
         c ∈ dom (instances (broker w1))) →
   instances (broker w2) = instances (broker w1) ∧ tried (events w2) = []).
Proof.
  intros _. unfold run. pose proof (run_order_decides g) as Hd.
  destruct (run_order g) as [order|e]; simpl; [|done].
  destruct Hd as (_ & Hnd & Hnodes & _).
  destruct (for_each_run_again R order (mkWorld (broker w1) []) Hnd)
    as (w' & new & -> & Hsub & _ & Htr & Hnew & Hsame).
  simpl in *. intros [= <-]. rewrite Htr.
  split; [done|]. split.
  - intros c. rewrite Hnew, Hnodes. done.
  - intros Hall. assert (new = []) as ->.
    { destruct new as [|c new]; [done|]. exfalso.
      destruct (proj1 (Hnew c)) as (Hc & Hi & Hdl); [by left|].
      apply Hi, Hall; [by apply Hnodes|done]. }
    split; [by apply Hsame|done].
Qed.

End run_loop.

(** ** More on the requirement algebra and the broker *)

Section requirement_lists.

Context {K : Type} `{Countable K}.

Implicit Types (requires : list (@requirement K)).


Lemma filter_sublist_impl {A} (P Q : A → Prop)
    `{∀ x, Decision (P x)} `{∀ x, Decision (Q x)} (l : list A) :
  (∀ x, P x → Q x) → filter P l `sublist_of` filter Q l.
Proof.
  intros Himp. induction l as [|a l IH]; [done|].
  rewrite !filter_cons. destruct (decide (P a)) as [Hp|Hp].
  - rewrite decide_True by auto. by apply sublist_skip.
  - destruct (decide (Q a)); [by apply sublist_cons|done].
Qed.

End requirement_lists.

Section requirements_and_broker.

Context {K : Type} `{Countable K}.
Context {T : Type} `{Countable T}.
Context {O : Type} `{Countable O}.

Implicit Types (d b : @Broker K _ _ T _ _ O _ _).
Implicit Types (IGNORE : gmap K (gset K)).
Implicit Types (requires : list (@requirement K)).


Lemma check_passes_iff IGNORE (func : K) requires d :
  requires ≠ [] → ¬ ignored IGNORE func d →
  get_missing_requirements IGNORE func requires d = Ok None
  ↔ satisfied requires d.
Proof.
  intros Hne Hig. rewrite (get_missing_requirements_checked _ _ _ _ Hne Hig).
  rewrite <- unsatisfied_nil.
  by destruct (unsatisfied requires d) as [[|??] [|??]].
Qed.

Lemma satisfied_mono requires d d' :
  dom (instances d) ⊆ dom (instances d') →
  satisfied requires d → satisfied requires d'.
Proof.
  intros Hsub [Ha Hg]. split.
  - intros r Hr. by apply Hsub, Ha.
  - intros g Hin. destruct (Hg g Hin) as (x & Hx & Hd). exists x.
    split; [done|]. by apply Hsub.
Qed.

(** X3.  Requirements only get satisfied as the broker fills: over a larger
    broker the unsatisfied singletons and groups are sub-lists of the
    earlier ones, and a check that passed still passes unless an ignored
    component has arrived. *)
Theorem missing_requirements_shrink IGNORE (func : K) requires d d' :
  dom (instances d) ⊆ dom (instances d') →
  (unsatisfied requires d').1 `sublist_of` (unsatisfied requires d).1 ∧
  (unsatisfied requires d').2 `sublist_of` (unsatisfied requires d).2 ∧
  (get_missing_requirements IGNORE func requires d = Ok None →
   ¬ ignored IGNORE func d' →
   get_missing_requirements IGNORE func requires d' = Ok None).
Proof.
  intros Hsub. split; [|split].
  - unfold unsatisfied. simpl. apply filter_sublist_impl. set_solver.
  - unfold unsatisfied. simpl. apply filter_sublist_impl.
    intros g Hg. eapply Forall_impl; [exact Hg|]. simpl. set_solver.
  - intros Hok Hig'.
    destruct requires as [|r rest]; [done|].
    assert (¬ ignored IGNORE func d) as Hig.
    { intros Hig. apply existsb_ignored in Hig.
      unfold get_missing_requirements in Hok. by rewrite Hig in Hok. }
    apply check_passes_iff; [done..|].
    eapply satisfied_mono; [exact Hsub|]. by apply (check_passes_iff IGNORE func).
Qed.

End requirements_and_broker.

Section broker_lookups.

Context {K : Type} `{Countable K}.
Context {T : Type} `{Countable T}.
Context {O : Type} `{Countable O}.

Variable get_name : K → string.

Implicit Types (b : @Broker K _ _ T _ _ O _ _).

(** X1.  [first_of] never raises: it returns the value of the first dependency
    that is in the broker, and [None] when none is. *)
Theorem first_of_first_present (dependencies : list K) b :
  (Forall (λ x, x ∉ dom (instances b)) dependencies →
   first_of get_name dependencies b = Ok VNone) ∧
  (∀ absent (c : K) rest v,
     dependencies = absent ++ c :: rest →
     Forall (λ x, x ∉ dom (instances b)) absent →
     instances b !! c = Some v →
     first_of get_name dependencies b = Ok v).
Proof.
  split.
  - induction 1 as [|c rest Hc _ IH]; [done|]. simpl.
    unfold broker_contains. by rewrite bool_decide_eq_false_2.
  - intros absent c rest v -> Habs Hd.
    induction Habs as [|x absent Hx _ IH]; simpl.
    + unfold broker_contains, broker_getitem.
      rewrite bool_decide_eq_true_2 by (apply elem_of_dom; eauto).
      by rewrite Hd.
    + unfold broker_contains at 1. by rewrite bool_decide_eq_false_2.
Qed.

End broker_lookups.

Section executors_and_broker.

Context {K : Type} `{Countable K}.
Context {T : Type} `{Countable T}.
Context {O : Type} `{Countable O}.

Variable get_name : K → string.
Variable invoke : K → @arguments K _ _ T _ _ O _ _ → @result K value.

Implicit Types (b : @Broker K _ _ T _ _ O _ _).
Implicit Types (w : @World K _ _ T _ _ O _ _).
Implicit Types (IGNORE : gmap K (gset K)).
Implicit Types (requires : list (@requirement K)).

(** X4.  With a non-empty spec that is not satisfied and no ignore hit, both
    executors raise [MissingRequirements] with the unsatisfied singletons
    and groups, a pair that is never empty on both sides, whatever the
    component body is; with a satisfied spec [broker_executor] calls the
    component on the broker itself. *)
Theorem executors_report_unsatisfied IGNORE (func : K) b requires
    (optional : list K) :
  requires ≠ [] → ¬ ignored IGNORE func b →
  (¬ satisfied requires b →
   unsatisfied requires b ≠ ([], []) ∧
   default_executor get_name invoke IGNORE func b requires optional
   = Raise (MissingRequirements (unsatisfied requires b)) ∧
   broker_executor invoke IGNORE func b requires optional
   = Raise (MissingRequirements (unsatisfied requires b))) ∧
  (satisfied requires b →
   broker_executor invoke IGNORE func b requires optional
   = invoke func (WithBroker b)).
Proof.
  intros Hne Hig. unfold default_executor, broker_executor.
  rewrite (get_missing_requirements_checked _ _ _ _ Hne Hig).
  pose proof (unsatisfied_nil requires b) as Hnil.
  split.
  - intros Hns.
    assert (unsatisfied requires b ≠ ([], [])) as Hn
      by (intros Hu; by apply Hns, Hnil).
    split; [done|].
    by destruct (unsatisfied requires b) as [[|??] [|??]].
  - intros Hs. apply Hnil in Hs. by rewrite Hs.
Qed.

(** X5.  A value put under an absent key is what [get] and item access return
    afterwards, the other keys read as before, and deleting the key gives
    back the broker as it was. *)
Theorem broker_put_get_delete w (c : K) (v : value) :
  c ∉ dom (instances (broker w)) →
  ∃ w1,
    broker_setitem get_name c v w = (Ok (), w1) ∧
    broker_getitem get_name (broker w1) c = Ok v ∧
    (∀ default, broker_get get_name (broker w1) c default = Ok v) ∧
    broker_contains (broker w1) c = true ∧
    (∀ k default, k ≠ c →
       broker_get get_name (broker w1) k default
       = broker_get get_name (broker w) k default) ∧
    broker_delitem c w1 = (Ok (), w).
Proof.
  intros Hc.
  assert (c ∈ dom (<[c := v]> (instances (broker w)))) as Hin
    by (rewrite dom_insert_L; apply elem_of_union_l, elem_of_singleton; done).
  exists (mkWorld (set_instances (insert c v) (broker w)) (events w)).
  split.
  { unfold broker_setitem, mbind, get_broker, broker_contains.
    by rewrite bool_decide_eq_false_2 by done. }
  split; [unfold broker_getitem; simpl; by rewrite lookup_insert_eq|].
  split; [intros dflt; unfold broker_get, broker_getitem; simpl;
          by rewrite lookup_insert_eq|].
  split; [unfold broker_contains; simpl; by apply bool_decide_eq_true_2|].
  split; [intros k dflt Hk; unfold broker_get, broker_getitem; simpl;
          by rewrite lookup_insert_ne|].
  unfold broker_delitem, mbind, get_broker, broker_contains, put_broker. simpl.
  rewrite bool_decide_eq_true_2 by done.
  unfold set_instances. simpl.
  rewrite delete_insert_id by (by apply not_elem_of_dom).
  by destruct w as [[]].
Qed.

End executors_and_broker.

(** ** Changes to the registry *)

Section registry_changes.

Context {K : Type} `{Countable K}.
Context {T : Type} `{Countable T}.
Context {G : Type} `{Countable G}.
Context {O : Type} `{Countable O}.

Variable get_name : K → string.
Variable invoke : K → @arguments K _ _ T _ _ O _ _ → @result K value.
Variable get_module_name : K → option string.
Variable get_base_module_name : K → option string.

Implicit Types (R : @Registry K _ _ T _ _ G _ _ O _ _).
Implicit Types (r : @registration K _ _ T _ _ G O _ _).

Local Abbreviation registered :=
  (register get_name invoke get_module_name get_base_module_name).
Local Abbreviation mutated :=
  (mutate get_name invoke get_module_name get_base_module_name).
Local Abbreviation mutated_all :=
  (mutate_all get_name invoke get_module_name get_base_module_name).

(** The delegate that a decoration stores. *)
Lemma register_delegate r R :
  DELEGATES (registered r R)
  = <[reg_func r :=
        mkDelegate (reg_func r)
          (match reg_executor r with
           | Some e => e
           | None => default_executor get_name invoke
           end)
          (reg_group r) (reg_requires r) (reg_optional r) []
          (Some (match reg_component_type r with
                 | Some t => t
                 | None => reg_decorator r
                 end))
          (reg_dependencies r)]> (DELEGATES R).
Proof.
  unfold register, decorate, new_Delegate. simpl.
  by destruct (add_dependents_frame (reg_func r)
              (elements (delegate_dependencies (reg_requires r) (reg_optional r)))
              R) as (_ & -> & _).
Qed.

Lemma register_DEPENDENCIES r R :
  DEPENDENCIES (registered r R)
  = <[reg_func r := reg_dependencies r]> (DEPENDENCIES R).
Proof.
  unfold register, decorate, new_Delegate. simpl.
  by destruct (add_dependents_frame (reg_func r)
              (elements (delegate_dependencies (reg_requires r) (reg_optional r)))
              R) as (-> & _).
Qed.

Lemma register_components r R (g : option G) :
  components_of (registered r R) g
  = if decide (g = reg_group r)
    then <[reg_func r :=
             default ∅ (components_of R g !! reg_func r)
             ∪ reg_dependencies r]> (components_of R g)
    else components_of R g.
Proof.
  unfold register, decorate, new_Delegate. simpl.
  rewrite register_component_components. simpl.
  unfold components_of.
  by destruct (add_dependents_frame (reg_func r)
              (elements (delegate_dependencies (reg_requires r) (reg_optional r)))
              R) as (_ & _ & -> & _).
Qed.

(** X6.  After a decoration the accessors give back what was declared: the
    type is the explicit one or else the decorator itself, never none;
    the dependencies are those of the spec and nothing has been added to
    them; each dependency lists the component among its dependents; and
    calling the delegate runs the chosen executor on the declared spec. *)
Theorem register_then_lookup r R :
  let R' := registered r R in
  let c := reg_func r in
  get_component_type R' c
  = Some (default (reg_decorator r) (reg_component_type r)) ∧
  get_group R' c = reg_group r ∧
  get_dependencies R' c = reg_dependencies r ∧
  dependencies_of R' c = reg_dependencies r ∧
  get_added_dependencies R' c = [] ∧
  (∀ d, d ∈ reg_dependencies r → c ∈ get_dependents R' d) ∧
  (∃ ds, components_of R' (reg_group r) !! c = Some ds
         ∧ reg_dependencies r ⊆ ds) ∧
  (∃ dl, get_delegate R' c = Some dl ∧
         ∀ b, call_delegate (IGNORE R') dl b
              = default (default_executor get_name invoke) (reg_executor r)
                  (IGNORE R') c b (reg_requires r) (reg_optional r)).
Proof.
  intros R' c. unfold get_component_type, get_group, get_dependencies,
    get_added_dependencies, get_delegate. subst R'.
  rewrite register_delegate, lookup_insert_eq. simpl.
  split; [by destruct (reg_component_type r)|]. split; [done|].
  split; [done|].
  split; [rewrite register_dependencies; by rewrite decide_True|].
  split; [done|].
  split.
  { intros d Hd. unfold get_dependents.
    change (default ∅ (DEPENDENTS (registered r R) !! d))
      with (dependents_of (registered r R) d).
    rewrite register_dependents, decide_True by done.
    apply elem_of_union_r, elem_of_singleton. done. }
  split.
  { rewrite register_components, decide_True by done.
    rewrite lookup_insert_eq. eexists. split; [done|]. apply union_subseteq_r. }
  eexists. split; [done|]. intros b. unfold call_delegate. simpl.
  by destruct (reg_executor r).
Qed.

(** X7.  [add_dependency] on a component without delegate raises and changes
    nothing.  On a registered component it appends the dependency to the
    added dependencies, adds it to the component's dependencies in the
    delegate and in [DEPENDENCIES], adds the component to the dependents of
    the dependency, and leaves the call of the delegate as it was: the
    added dependency is not passed to the component. *)
Theorem add_dependency_effect (c dep : K) R :
  (get_delegate R c = None → add_dependency c dep R = None) ∧
  (∀ dl, get_delegate R c = Some dl → component dl = c →
     ∃ R',
       add_dependency c dep R = Some R' ∧
       get_dependencies R' c = get_dependencies R c ∪ {[dep]} ∧
       dependencies_of R' c = dependencies_of R c ∪ {[dep]} ∧
       get_added_dependencies R' c = get_added_dependencies R c ++ [dep] ∧
       get_dependents R' dep = get_dependents R dep ∪ {[c]} ∧
       (∀ d, d ≠ dep → get_dependents R' d = get_dependents R d) ∧
       get_component_type R' c = get_component_type R c ∧
       ∃ dl', get_delegate R' c = Some dl' ∧
              ∀ b, call_delegate (IGNORE R') dl' b
                   = call_delegate (IGNORE R) dl b).
Proof.
  unfold add_dependency. split; [by intros ->|].
  intros dl Hdl Hc. rewrite Hdl. simpl. eexists. split; [done|].
  unfold get_dependencies, get_added_dependencies, get_component_type,
    get_delegate, dependencies_of, get_dependents in *. simpl.
  rewrite Hc, Hdl, !lookup_insert_eq. simpl.
  split; [reflexivity|]. split; [reflexivity|]. split; [reflexivity|].
  split; [reflexivity|].
  split; [intros d Hd; by rewrite lookup_insert_ne|].
  split; [reflexivity|]. eexists. split; [reflexivity|].
  intros b. unfold call_delegate. simpl. by rewrite Hc.
Qed.

Lemma registry_consistent_empty :
  registry_consistent (@empty_registry K _ _ T _ _ G _ _ O _ _).
Proof.
  unfold registry_consistent, dependencies_of. simpl.
  split; [intros c dl Hc; by rewrite lookup_empty in Hc|].
  split; [intros c d; rewrite lookup_empty; simpl; by intros ?%not_elem_of_empty|].
  by rewrite !dom_empty_L.
Qed.

Lemma registry_consistent_register r R :
  registry_consistent R → registry_consistent (registered r R).
Proof.
  intros (Hdl & Hmirror & Hdom). split; [|split].
  - intros c dl. rewrite register_delegate, register_DEPENDENCIES.
    destruct (decide (c = reg_func r)) as [->|Hne].
    + rewrite !lookup_insert_eq. intros [= <-]. simpl.
      split; [done|]. split; [done|].
      rewrite register_components, decide_True by done.
      rewrite lookup_insert_eq. eexists. split; [done|].
      apply union_subseteq_r.
    + rewrite !lookup_insert_ne by done. intros Hc.
      destruct (Hdl c dl Hc) as (Hcomp & Hdeps & ds & Hds & Hsub).
      split; [done|]. split; [done|].
      rewrite register_components.
      destruct (decide (group dl = reg_group r)); [|by eauto].
      rewrite lookup_insert_ne by done. eauto.
  - intros c d. rewrite register_dependencies, register_dependents.
    destruct (decide (c = reg_func r)) as [->|Hne].
    + intros Hd. rewrite decide_True by done.
      apply elem_of_union_r, elem_of_singleton. done.
    + intros Hd. by apply elem_of_union_l, Hmirror.
  - by rewrite register_delegate, register_DEPENDENCIES, !dom_insert_L, Hdom.
Qed.

Lemma registry_consistent_add_dependency (c dep : K) R R' :
  registry_consistent R → add_dependency c dep R = Some R' →
  registry_consistent R'.
Proof.
  intros (Hdl & Hmirror & Hdom). unfold add_dependency, get_delegate.
  destruct (DELEGATES R !! c) as [self|] eqn:Hself; [|done].
  destruct (Hdl c self Hself) as (Hcomp & Hdeps & ds & Hds & Hsub).
  simpl. intros [= <-]. rewrite Hcomp. split; [|split].
  - intros k dl. simpl. destruct (decide (k = c)) as [->|Hne].
    + rewrite lookup_insert_eq. intros [= <-]. simpl.
      split; [done|]. rewrite lookup_insert_eq, Hdeps. split; [done|].
      unfold components_of. simpl. rewrite ?lookup_insert_eq. cbn [default from_option id].
      rewrite ?lookup_insert_eq. unfold components_of in Hds. rewrite Hds.
      eexists. split; [done|]. simpl. by apply union_mono_r.
    + rewrite !lookup_insert_ne by done. intros Hk.
      destruct (Hdl k dl Hk) as (Hcomp' & Hdeps' & ds' & Hds' & Hsub').
      split; [done|]. split; [done|].
      unfold components_of in *. simpl.
      destruct (decide (group self = group dl)) as [Heq|Hg].
      * rewrite Heq, ?lookup_insert_eq. cbn [default from_option id].
        rewrite lookup_insert_ne by done. eauto.
      * rewrite lookup_insert_ne by done. eauto.
  - intros k d. unfold dependencies_of, dependents_of. simpl.
    intros Hd.
    assert (d = dep ∧ k = c ∨ d ∈ default ∅ (DEPENDENCIES R !! k)) as [[-> ->]|Hold].
    { destruct (decide (k = c)) as [->|Hne].
      - rewrite lookup_insert_eq in Hd. simpl in Hd.
        apply elem_of_union in Hd as [Hd|Hd%elem_of_singleton]; auto.
      - rewrite lookup_insert_ne in Hd by done. auto. }
    + rewrite lookup_insert_eq. simpl.
      apply elem_of_union_r, elem_of_singleton. done.
    + specialize (Hmirror k d Hold). unfold dependents_of in Hmirror.
      destruct (decide (d = dep)) as [->|Hne].
      * rewrite lookup_insert_eq. simpl. by apply elem_of_union_l.
      * by rewrite lookup_insert_ne.
  - simpl. rewrite !dom_insert_L, Hdom.
    assert (c ∈ dom (DELEGATES R)) by (apply elem_of_dom; eauto).
    apply set_eq. intros x. rewrite !elem_of_union, !elem_of_singleton.
    split; intros [->|?]; auto.
Qed.

(** X8.  Every registry reached from the empty one by decorations and
    [add_dependency] calls is consistent. *)
Theorem registry_stays_consistent (ms : list mutation) R :
  mutated_all ms empty_registry = Some R → registry_consistent R.
Proof.
  assert (∀ R0, registry_consistent R0 →
                mutated_all ms R0 = Some R → registry_consistent R) as Hgen.
  { induction ms as [|m ms IH]; intros R0 Hcons; simpl.
    - by intros [= <-].
    - destruct m as [r|c dep]; simpl.
      + apply IH. by apply registry_consistent_register.
      + destruct (add_dependency c dep R0) as [R1|] eqn:Hadd; [|done].
        apply IH. by eapply registry_consistent_add_dependency. }
  apply Hgen, registry_consistent_empty.
Qed.

End registry_changes.

(** ** More on the run loop *)

Section list_filters.

Lemma filter_ext_elem_of {A} (P Q : A → Prop)
    `{∀ x, Decision (P x)} `{∀ x, Decision (Q x)} (l : list A) :
  (∀ x, x ∈ l → (P x ↔ Q x)) → filter P l = filter Q l.
Proof.
  induction l as [|a l IH]; intros Hext; [done|].
  rewrite !filter_cons.
  assert (P a ↔ Q a) as Ha by (apply Hext; left).
  rewrite IH by (intros x Hx; apply Hext; by right).
  destruct (decide (P a)), (decide (Q a)); tauto.
Qed.

End list_filters.

Section run_more.

Context {K : Type} `{Countable K}.
Context {T : Type} `{Countable T}.
Context {G : Type} `{Countable G}.
Context {O : Type} `{Countable O}.

Variable ANY_TYPE : T.
Variable get_name : K → string.
Variable observe : O → K → @Broker K _ _ T _ _ O _ _ → option (@exn K).

Implicit Types (w : @World K _ _ T _ _ O _ _).
Implicit Types (b : @Broker K _ _ T _ _ O _ _).
Implicit Types (R : @Registry K _ _ T _ _ G _ _ O _ _).

Lemma for_each_run_trace R (l : list K) w :
  NoDup l →
  ∃ w',
    for_each l (run_component ANY_TYPE get_name observe R) w = (Ok (), w') ∧
    instances (broker w) ⊆ instances (broker w') ∧
    tried (events w')
    = tried (events w)
      ++ filter (λ c, (c ∉ dom (instances (broker w))) ∧ c ∈ dom (DELEGATES R)) l.
Proof.
  revert w. induction l as [|c l IH]; intros w Hnd.
  - exists w. simpl. by rewrite app_nil_r.
  - apply NoDup_cons in Hnd as [Hc Hnd]. simpl. unfold mbind.
    destruct (run_component_again ANY_TYPE get_name observe R c w)
      as (w1 & -> & Hstep).
    destruct (IH w1 Hnd) as (w' & -> & Hsub & Htr).
    exists w'. split; [done|]. rewrite filter_cons.
    destruct Hstep as [(Hat & Hi & Ht)|(Hci & Hcd & Ht & Hsub1 & Hdom1)].
    + rewrite Hi, Ht in *. split; [done|].
      apply attempt_None in Hat. rewrite decide_False by tauto. done.
    + split; [by etrans|]. rewrite decide_True by done.
      rewrite Htr, Ht, <- app_assoc. simpl. do 2 f_equal.
      apply filter_ext_elem_of. intros x Hx.
      assert (x ≠ c) by (intros ->; done).
      apply subseteq_dom in Hsub1.
      split; intros [Hxi Hxd]; (split; [|done]); intros Hin; apply Hxi.
      * by apply Hsub1.
      * apply Hdom1 in Hin. apply elem_of_union in Hin as [Hin|Hin]; [|done].
        by apply elem_of_singleton in Hin.
Qed.

(** X9.  [run] raises only for a graph with a cycle; on every other graph it
    returns a broker whatever the components and the observers raise.  It
    keeps the instances it was given, and it invokes, in the order of
    [run_order], the delegate of each component that has one and was not
    in the broker at the start, once each. *)
Theorem run_isolates_failures R (g : gmap K (gset K))
    (start : option (@Broker K _ _ T _ _ O _ _)) :
  (cyclic g →
   run ANY_TYPE get_name observe R g start = Raise CircularDependencyError) ∧
  (acyclic g →
   ∃ w order,
     run ANY_TYPE get_name observe R g start = Ok w ∧
     run_order g = Ok order ∧
     instances (start_broker ANY_TYPE R start) ⊆ instances (broker w) ∧
     tried (events w)
     = filter (λ c, (c ∉ dom (instances (start_broker ANY_TYPE R start)))
                    ∧ c ∈ dom (DELEGATES R)) order).
Proof.
  unfold run. fold (start_broker ANY_TYPE R start).
  pose proof (run_order_decides g) as Hd.
  destruct (run_order g) as [order|e]; simpl.
  - destruct Hd as (Hac & Hnd & _). split; [by intros ?|]. intros _.
    destruct (for_each_run_trace R order (mkWorld (start_broker ANY_TYPE R start) []) Hnd)
      as (w' & -> & Hsub & Htr).
    exists w', order. done.
  - destruct Hd as [Hc ->]. split; [done|]. intros Hac. by destruct Hac.
Qed.

Lemma observer_calls_app (evs1 evs2 : list (@event K _ _ T _ _ O _ _)) :
  observer_calls (evs1 ++ evs2) = observer_calls evs1 ++ observer_calls evs2.
Proof. unfold observer_calls. apply omap_app. Qed.

Lemma observer_calls_observer_events (c : K) b (l : list O) :
  observer_calls (flat_map (observer_events observe c b) l)
  = (λ o, (o, c)) <$> l.
Proof.
  induction l as [|o l IH]; [done|].
  cbn [flat_map]. rewrite observer_calls_app, IH, fmap_cons. f_equal.
  unfold observer_calls, observer_events. simpl.
  by destruct (observe o c b).
Qed.

Lemma calls_for_lookup R b b' (c : K) :
  (∀ t, default ∅ (observers b' !! t) = default ∅ (observers b !! t)) →
  calls_for ANY_TYPE R b' c = calls_for ANY_TYPE R b c.
Proof.
  intros Hobs. unfold calls_for, selected_observers.
  destruct (get_component_type R c); [|done]. by rewrite !Hobs.
Qed.

(** The [try] block with its [except] clauses leaves the observers and the
    record of observer calls alone. *)
Lemma run_try_except_observers R (c : K) w :
  ∃ w',
    try_except (run_try get_name R c) (run_except c) w = (Ok (), w') ∧
    observers (broker w') = observers (broker w) ∧
    exec_times (broker w') = exec_times (broker w) ∧
    observer_calls (events w') = observer_calls (events w).
Proof.
  unfold try_except, run_try, mbind, get_broker.
  destruct (broker_contains (broker w) c) eqn:Hin; simpl.
  { exists w. by destruct w. }
  destruct (DELEGATES R !! c) as [delegate|]; simpl; [|exists w; by destruct w].
  unfold lift.
  destruct (call_delegate (IGNORE R) delegate (broker w)) as [v|e]; simpl.
  - unfold broker_setitem, mbind, get_broker. simpl. rewrite Hin.
    unfold put_broker. simpl. eexists. split; [done|]. simpl.
    by rewrite observer_calls_app, app_nil_r.
  - destruct e; simpl; unfold add_exception, mbind, get_broker, put_broker, ret;
      simpl; (eexists; split; [done|]); simpl;
      by rewrite observer_calls_app, app_nil_r.
Qed.

(** One iteration records the time of its component and makes the observer
    calls of [fire_observers], whatever the outcome of the component. *)
Lemma run_component_observed R (c : K) w :
  ∃ w',
    run_component ANY_TYPE get_name observe R c w = (Ok (), w') ∧
    exec_times (broker w') = exec_times (broker w) ∪ {[c]} ∧
    (∀ t, default ∅ (observers (broker w') !! t)
          = default ∅ (observers (broker w) !! t)) ∧
    observer_calls (events w')
    = observer_calls (events w) ++ calls_for ANY_TYPE R (broker w) c.
Proof.
  unfold run_component, try_finally.
  destruct (run_try_except_observers R c w) as (w1 & -> & Hobs & Hex & Hcalls).
  unfold run_finally, mbind, get_broker, put_broker, calls_for.
  destruct (get_component_type R c) as [t|] eqn:Ht.
  - rewrite (fire_observers_typed ANY_TYPE observe R c t _ Ht).
    eexists. split; [reflexivity|]. cbn [broker events].
    split; [unfold with_any_entry; cbn [observers];
            destruct (observers (broker w1) !! ANY_TYPE); cbn [exec_times];
            by rewrite Hex|].
    split.
    { intros t'. rewrite with_any_entry_lookup. cbn [observers].
      by rewrite Hobs. }
    rewrite observer_calls_app, observer_calls_observer_events, Hcalls.
    unfold selected_observers. cbn [observers]. by rewrite Hobs.
  - rewrite (fire_observers_untyped ANY_TYPE observe R c _ Ht).
    eexists. split; [reflexivity|]. cbn [broker events exec_times observers].
    rewrite Hex, Hobs, Hcalls, app_nil_r. done.
Qed.

Lemma for_each_run_observed R (l : list K) w :
  ∃ w',
    for_each l (run_component ANY_TYPE get_name observe R) w = (Ok (), w') ∧
    exec_times (broker w') = exec_times (broker w) ∪ list_to_set l ∧
    (∀ t, default ∅ (observers (broker w') !! t)
          = default ∅ (observers (broker w) !! t)) ∧
    observer_calls (events w')
    = observer_calls (events w) ++ flat_map (calls_for ANY_TYPE R (broker w)) l.
Proof.
  revert w. induction l as [|c l IH]; intros w.
  - exists w. simpl. rewrite app_nil_r, union_empty_r_L. done.
  - simpl. unfold mbind.
    destruct (run_component_observed R c w) as (w1 & -> & Hex1 & Hobs1 & Hc1).
    destruct (IH w1) as (w' & -> & Hex & Hobs & Hc).
    exists w'. split; [done|].
    split; [rewrite Hex, Hex1; by rewrite <- union_assoc_L|].
    split; [intros t; by rewrite Hobs, Hobs1|].
    rewrite Hc, Hc1, <- app_assoc. do 2 f_equal.
    apply flat_map_ext. intros k. by apply calls_for_lookup.
Qed.

(** X10.  After [run] every component of the graph has an execution time, and
    the observers were called exactly as follows: going through the
    components in the order of [run_order], for each component that has a
    type, each observer that the starting broker holds under that type or
    under [ANY_TYPE] is called once, whether the component returned a
    value, failed, was skipped or was not invoked at all. *)
Theorem run_times_and_observes R (g : gmap K (gset K))
    (start : option (@Broker K _ _ T _ _ O _ _)) w :
  run ANY_TYPE get_name observe R g start = Ok w →
  exec_times (broker w) = exec_times (start_broker ANY_TYPE R start) ∪ nodes g ∧
  ∃ order,
    run_order g = Ok order ∧
    observer_calls (events w)
    = flat_map (calls_for ANY_TYPE R (start_broker ANY_TYPE R start)) order.
Proof.
  unfold run. fold (start_broker ANY_TYPE R start).
  pose proof (run_order_decides g) as Hd.
  destruct (run_order g) as [order|e]; simpl; [|done].
  destruct Hd as (_ & _ & Hnodes & _).
  destruct (for_each_run_observed R order (mkWorld (start_broker ANY_TYPE R start) []))
    as (w' & -> & Hex & _ & Hcalls).
  intros [= <-]. simpl in *. split; [|by eauto].
  rewrite Hex. f_equal. apply set_eq. intros c.
  by rewrite elem_of_list_to_set, Hnodes.
Qed.

End run_more.

Section values_and_requirements.

Context {K : Type} `{Countable K}.
Context {T : Type} `{Countable T}.
Context {G : Type} `{Countable G}.
Context {O : Type} `{Countable O}.

Variable ANY_TYPE : T.
Variable get_name : K → string.
Variable invoke : K → @arguments K _ _ T _ _ O _ _ → @result K value.
Variable observe : O → K → @Broker K _ _ T _ _ O _ _ → option (@exn K).

Implicit Types (w : @World K _ _ T _ _ O _ _).
Implicit Types (b : @Broker K _ _ T _ _ O _ _).
Implicit Types (R : @Registry K _ _ T _ _ G _ _ O _ _).
Implicit Types (dl : @Delegate K _ _ T _ _ G O _ _).

Lemma check_passed IGNORE (func : K) (requires : list (@requirement K)) b :
  get_missing_requirements IGNORE func requires b = Ok None →
  requires = [] ∨ satisfied requires b.
Proof.
  intros Hok. destruct requires as [|r rest]; [by left|]. right.
  assert (¬ ignored IGNORE func b) as Hig.
  { intros Hig%existsb_ignored.
    unfold get_missing_requirements in Hok. by rewrite Hig in Hok. }
  by apply (check_passes_iff IGNORE func).
Qed.

Lemma standard_call_returns IGNORE dl b (v : value) :
  standard_executor get_name invoke dl →
  call_delegate IGNORE dl b = Ok v →
  requires dl = [] ∨ satisfied (requires dl) b.
Proof.
  unfold call_delegate.
  intros [->| ->]; unfold default_executor, broker_executor;
    destruct (get_missing_requirements IGNORE (component dl) (requires dl) b)
      as [[m|]|e] eqn:Hm; simpl; try done; intros _;
    by eapply check_passed.
Qed.

Lemma attempt_Some R b (c : K) r :
  attempt R b c = Some r →
  (c ∉ dom (instances b)) ∧
  ∃ dl, DELEGATES R !! c = Some dl ∧ r = call_delegate (IGNORE R) dl b.
Proof.
  unfold attempt, broker_contains. case_bool_decide as Hin; [done|].
  intros (dl & Hdl & ->)%fmap_Some. eauto.
Qed.

Lemma for_each_run_values R (l : list K) w (I0 : gset K) :
  (∀ c v dl, instances (broker w) !! c = Some v → c ∉ I0 →
             DELEGATES R !! c = Some dl →
             standard_executor get_name invoke dl →
             requires dl = [] ∨ satisfied (requires dl) (broker w)) →
  ∃ w',
    for_each l (run_component ANY_TYPE get_name observe R) w = (Ok (), w') ∧
    (∀ c v dl, instances (broker w') !! c = Some v → c ∉ I0 →
               DELEGATES R !! c = Some dl →
               standard_executor get_name invoke dl →
               requires dl = [] ∨ satisfied (requires dl) (broker w')).
Proof.
  revert w. induction l as [|c l IH]; intros w Hinv.
  - exists w. done.
  - simpl. unfold mbind.
    destruct (run_component_effect ANY_TYPE get_name observe R c w)
      as (w1 & -> & Heff).
    apply IH. intros k v dl Hk Hk0 Hdl Hstd.
    destruct (attempt R (broker w) c) as [r|] eqn:Hat.
    + apply attempt_Some in Hat as (Hc & dl0 & Hdl0 & ->).
      destruct Heff as (_ & Heff).
      destruct (call_delegate (IGNORE R) dl0 (broker w)) as [v0|e] eqn:Hcall.
      * destruct Heff as (Hi & _ & _).
        assert (dom (instances (broker w)) ⊆ dom (instances (broker w1)))
          as Hsub by (rewrite Hi, dom_insert_L; apply union_subseteq_r).
        destruct (decide (k = c)) as [->|Hne].
        -- assert (dl = dl0) as -> by congruence.
           destruct (standard_call_returns _ _ _ _ Hstd Hcall) as [?|Hs];
             [by left|right]. by eapply satisfied_mono.
        -- rewrite Hi, lookup_insert_ne in Hk by done.
           destruct (Hinv k v dl Hk Hk0 Hdl Hstd) as [?|Hs]; [by left|right].
           by eapply satisfied_mono.
      * assert (instances (broker w1) = instances (broker w)) as Hi
          by (destruct e; apply Heff).
        rewrite Hi in Hk.
        destruct (Hinv k v dl Hk Hk0 Hdl Hstd) as [?|Hs]; [by left|right].
        eapply satisfied_mono; [|exact Hs]. by rewrite Hi.
    + destruct Heff as (Hi & _). rewrite Hi in Hk.
      destruct (Hinv k v dl Hk Hk0 Hdl Hstd) as [?|Hs]; [by left|right].
      eapply satisfied_mono; [|exact Hs]. by rewrite Hi.
Qed.

(** X11.  A component that got its value during the run, through one of the two
    executors of the module, has its requirements met in the broker that
    [run] returns: every singleton requirement has a value and every
    any-of group has a member with a value. *)
Theorem value_means_requirements_met R (g : gmap K (gset K))
    (start : option (@Broker K _ _ T _ _ O _ _)) w (c : K) (v : value) dl :
  run ANY_TYPE get_name observe R g start = Ok w →
  instances (broker w) !! c = Some v →
  c ∉ dom (instances (start_broker ANY_TYPE R start)) →
  DELEGATES R !! c = Some dl →
  standard_executor get_name invoke dl →
  requires dl = [] ∨ satisfied (requires dl) (broker w).
Proof.
  unfold run. fold (start_broker ANY_TYPE R start).
  destruct (run_order g) as [order|e]; simpl; [|done].
  destruct (for_each_run_values R order
              (mkWorld (start_broker ANY_TYPE R start) [])
              (dom (instances (start_broker ANY_TYPE R start))))
    as (w' & -> & Hinv).
  { simpl. intros k v0 dl0 Hk Hk0. exfalso. apply Hk0, elem_of_dom. eauto. }
  intros [= <-]. apply Hinv.
Qed.

End values_and_requirements.

Section global_observers.

Context {K : Type} `{Countable K}.
Context {T : Type} `{Countable T}.
Context {G : Type} `{Countable G}.
Context {O : Type} `{Countable O}.

Variable ANY_TYPE : T.
Variable get_name : K → string.
Variable observe : O → K → @Broker K _ _ T _ _ O _ _ → option (@exn K).

Implicit Types (w : @World K _ _ T _ _ O _ _).
Implicit Types (R : @Registry K _ _ T _ _ G _ _ O _ _).

Lemma new_Broker_observers R seed (t : T) :
  default ∅ (observers (new_Broker ANY_TYPE R seed) !! t)
  = default ∅ (TYPE_OBSERVERS R !! t).
Proof.
  simpl. rewrite lookup_union.
  destruct (TYPE_OBSERVERS R !! t) as [os|] eqn:Ht; simpl.
  - by destruct ({[ANY_TYPE := ∅]} !! t).
  - destruct (decide (t = ANY_TYPE)) as [->|Hne].
    + by rewrite lookup_singleton_eq.
    + by rewrite lookup_singleton_ne.
Qed.

(** X12.  An observer added to the module under a type before [run] creates its
    broker is called, during that run, for every component of the graph
    that has this type; added under [ANY_TYPE], for every component that
    has a type at all.  A broker built from a seed takes the observers of
    the module, not those of the seed. *)
Theorem global_observer_is_called R (o : O) (t : T) (g : gmap K (gset K))
    w (c : K) :
  run ANY_TYPE get_name observe (add_observer o t R) g None = Ok w →
  c ∈ nodes g →
  get_component_type R c = Some t
  ∨ (t = ANY_TYPE ∧ is_Some (get_component_type R c)) →
  (o, c) ∈ observer_calls (events w) ∧
  (∀ seed t', default ∅ (observers (new_Broker ANY_TYPE R (Some seed)) !! t')
              = default ∅ (TYPE_OBSERVERS R !! t')).
Proof.
  intros Hrun Hc Hty. split; [|intros seed t'; apply new_Broker_observers].
  revert Hrun. unfold run.
  pose proof (run_order_decides g) as Hd.
  destruct (run_order g) as [order|e]; simpl; [|done].
  destruct Hd as (_ & _ & Hnodes & _).
  destruct (for_each_run_observed ANY_TYPE get_name observe
              (add_observer o t R) order
              (mkWorld (new_Broker ANY_TYPE (add_observer o t R) None) []))
    as (w' & -> & _ & _ & Hcalls).
  intros [= <-]. rewrite Hcalls. cbn [events broker observer_calls omap app].
  apply list_elem_of_In, in_flat_map. exists c.
  split; [by apply list_elem_of_In, Hnodes|]. apply list_elem_of_In.
  unfold calls_for.
  assert (get_component_type (add_observer o t R) c = get_component_type R c)
    as -> by done.
  assert (o ∈ default ∅ (TYPE_OBSERVERS (add_observer o t R) !! t)) as Ho.
  { simpl. rewrite lookup_insert_eq. simpl.
    apply elem_of_union_r, elem_of_singleton. done. }
  destruct Hty as [->|[-> [t' ->]]].
  - apply list_elem_of_fmap. exists o. split; [done|].
    apply elem_of_elements. unfold selected_observers.
    rewrite !new_Broker_observers. by apply elem_of_union_l.
  - apply list_elem_of_fmap. exists o. split; [done|].
    apply elem_of_elements. unfold selected_observers.
    rewrite !new_Broker_observers. by apply elem_of_union_r.
Qed.

End global_observers.

(** ** Walking the dependencies *)

Section dependency_walk.

Context {K : Type} `{Countable K}.
Context {T : Type} `{Countable T}.
Context {G : Type} `{Countable G}.
Context {O : Type} `{Countable O}.

Implicit Types (R : @Registry K _ _ T _ _ G _ _ O _ _).
Implicit Types (calls : list (K * option K)).

Lemma visit_S (depth : nat) R (p : K) calls :
  visit (S depth) R p = Some calls ↔
  ∃ css, calls = mjoin css ∧
         Forall2 (λ d cs, ∃ sub, visit depth R d = Some sub
                                 ∧ cs = (d, Some p) :: sub)
           (elements (get_dependencies R p)) css.
Proof.
  simpl. rewrite fmap_Some. split.
  - intros (css & Hm & ->). exists css. split; [done|].
    apply mapM_Some in Hm. eapply Forall2_impl; [exact Hm|].
    intros d cs (sub & Hsub & ->)%fmap_Some. eauto.
  - intros (css & -> & Hf). exists css. split; [|done].
    apply mapM_Some. eapply Forall2_impl; [exact Hf|].
    intros d cs (sub & Hsub & ->). by rewrite Hsub.
Qed.

(** The visitor is called on (c, q) exactly for the components q reachable
    from the parent and their dependencies c. *)
Lemma visit_calls (depth : nat) R (p : K) calls :
  visit depth R p = Some calls →
  ∀ c oq, (c, oq) ∈ calls ↔
          ∃ q, oq = Some q ∧ rtc (requires_directly R) p q
               ∧ requires_directly R q c.
Proof.
  revert p calls. induction depth as [|depth IH]; intros p calls; [done|].
  intros (css & -> & Hf)%visit_S c oq. split.
  - intros (cs & Hc & Hcs)%list_elem_of_join.
    apply list_elem_of_lookup in Hcs as [i Hi].
    destruct (Forall2_lookup_r _ _ _ _ _ Hf Hi) as (d & Hd & sub & Hsub & ->).
    assert (requires_directly R p d) as Hpd.
    { unfold requires_directly. apply elem_of_elements.
      apply list_elem_of_lookup. eauto. }
    apply elem_of_cons in Hc as [[= -> ->]|Hc].
    + exists p. done.
    + apply (IH _ _ Hsub) in Hc as (q & -> & Hdq & Hqc).
      exists q. split; [done|]. split; [|done]. by eapply rtc_l.
  - intros (q & -> & Hpq & Hqc). apply list_elem_of_join.
    apply rtc_inv in Hpq as [<-|(d & Hpd & Hdq)].
    + unfold requires_directly in Hqc.
      apply elem_of_elements, list_elem_of_lookup in Hqc as [i Hi].
      destruct (Forall2_lookup_l _ _ _ _ _ Hf Hi) as (cs & Hcs & sub & _ & ->).
      exists ((c, Some p) :: sub). split; [by left|].
      apply list_elem_of_lookup. eauto.
    + unfold requires_directly in Hpd.
      apply elem_of_elements, list_elem_of_lookup in Hpd as [i Hi].
      destruct (Forall2_lookup_l _ _ _ _ _ Hf Hi) as (cs & Hcs & sub & Hsub & ->).
      exists ((d, Some p) :: sub). split; [|apply list_elem_of_lookup; eauto].
      right. apply (IH _ _ Hsub). eauto.
Qed.

(** X13.  When [walk_dependencies] returns, its first call is on the root with
    no parent, every later call is on a dependency of its parent, and the
    components called on are exactly those reachable from the root. *)
Theorem walk_dependencies_reachable (depth : nat) R (root : K) calls :
  walk_dependencies depth R root = Some calls →
  (∃ rest, calls = (root, None) :: rest ∧
           Forall (λ call, ∃ q, call.2 = Some q
                                ∧ requires_directly R q call.1) rest) ∧
  (∀ c, (∃ oq, (c, oq) ∈ calls) ↔ rtc (requires_directly R) root c).
Proof.
  unfold walk_dependencies. intros (rest & Hv & ->)%fmap_Some.
  pose proof (visit_calls _ _ _ _ Hv) as Hcalls. split.
  - exists rest. split; [done|]. apply Forall_forall. intros [c oq] Hin.
    apply Hcalls in Hin as (q & -> & _ & Hqc). simpl. eauto.
  - intros c. split.
    + intros (oq & [[= -> ->]|Hin]%elem_of_cons); [done|].
      apply Hcalls in Hin as (q & -> & Hq & Hqc). by eapply rtc_r.
    + intros [<-|(q & Hq & Hqc)]%rtc_inv_r.
      * exists None. by left.
      * exists (Some q). right. apply Hcalls. eauto.
Qed.








End dependency_walk.

(** ** Sub-graphs and incremental runs *)

Section subgraphs.
Context {K : Type} `{Countable K}.
Context {T : Type} `{Countable T}.
Context {G : Type} `{Countable G}.
Context {O : Type} `{Countable O}.
Variable pop : nat → gset K → K.

Implicit Types (R : @Registry K _ _ T _ _ G _ _ O _ _).
Implicit Types (graph sub : gmap K (gset K)).

Lemma flood_closes R graph (k : K) (fuel n : nat) (frontier seen : gset K) :
  (∀ n (X : gset K), X ≠ ∅ → pop n X ∈ X) →
  frontier ## seen →
  frontier ∪ seen ⊆ dom graph →
  (∀ s d, s ∈ seen → linked R graph s d → d ∈ frontier ∪ seen) →
  (∀ x, x ∈ frontier ∪ seen → rtc (linked R graph) k x) →
  size (dom graph ∖ seen) < fuel →
  ∃ res n',
    flood pop fuel R graph n frontier seen = Some (res, n') ∧
    frontier ∪ seen ⊆ res ∧ res ⊆ dom graph ∧
    (∀ s d, s ∈ res → linked R graph s d → d ∈ res) ∧
    (∀ x, x ∈ res → rtc (linked R graph) k x).
Proof.
  intros Hpop. revert n frontier seen.
  induction fuel as [|fuel IH];
    intros n frontier seen Hdisj Hsub Hclosed Hreach Hfuel; [lia|].
  cbn [flood]. destruct (decide (frontier = ∅)) as [->|Hne].
  { exists seen, n. split; [done|]. split; [clear; set_solver|].
    split; [clear -Hsub; set_solver|].
    split; [|intros x Hx; apply Hreach; clear -Hx; set_solver].
    intros s d Hs Hl. specialize (Hclosed s d Hs Hl).
    clear -Hclosed. set_solver. }
  cbv zeta. pose proof (Hpop n frontier Hne) as Hc.
  remember (pop n frontier) as c eqn:Heqc. clear Heqc.
  assert (c ∈ dom graph) as Hcg by (clear -Hc Hsub; set_solver).
  assert (c ∉ seen) as Hcs by (clear -Hc Hdisj; set_solver).
  match goal with
  | |- ∃ res n', flood pop fuel R graph ?m ?f ?s = Some (res, n') ∧ _ =>
      destruct (IH m f s) as (res & n' & Hres & Hin & Hdom & Hcl & Hrc)
  end.
  - clear. set_solver.
  - clear -Hsub Hcg. set_solver.
  - intros s d Hs Hl. apply elem_of_union in Hs as [Hs|Hs].
    + specialize (Hclosed s d Hs Hl).
      destruct (decide (d = c)) as [->|Hdc]; [clear; set_solver|].
      destruct (decide (d ∈ seen)) as [Hds|Hds]; [clear -Hds; set_solver|].
      clear -Hclosed Hdc Hds. set_solver.
    + apply elem_of_singleton in Hs as ->.
      destruct (decide (d = c)) as [->|Hdc]; [clear; set_solver|].
      destruct (decide (d ∈ seen)) as [Hds|Hds]; [clear -Hds; set_solver|].
      destruct Hl as [Hdg [Hd|Hd]].
      * apply elem_of_union_l, elem_of_difference. split.
        -- apply elem_of_union_l, elem_of_union_r, elem_of_filter. done.
        -- clear -Hds Hdc. set_solver.
      * apply elem_of_union_l, elem_of_difference. split.
        -- apply elem_of_union_r, elem_of_filter. done.
        -- clear -Hds Hdc. set_solver.
  - intros x Hx.
    assert (x ∈ frontier ∪ seen ∨ linked R graph c x) as [Hold|Hnew].
    { apply elem_of_union in Hx as [Hx|Hx].
      - apply elem_of_difference in Hx as [Hx _].
        apply elem_of_union in Hx as [Hx|Hx].
        + apply elem_of_union in Hx as [Hx|Hx].
          * left. clear -Hx. set_solver.
          * apply elem_of_filter in Hx as [Hg Hd]. right. split; [done|by left].
        + apply elem_of_filter in Hx as [Hg Hd]. right. split; [done|by right].
      - left. clear -Hx Hc. set_solver. }
    + by apply Hreach.
    + eapply rtc_r; [|exact Hnew]. apply Hreach. clear -Hc. set_solver.
  - assert (dom graph ∖ (seen ∪ {[c]}) ⊂ dom graph ∖ seen) as Hlt.
    { split; [clear; set_solver|]. intros Hsup. specialize (Hsup c).
      clear -Hsup Hcg Hcs. set_solver. }
    apply subset_size in Hlt. lia.
  - exists res, n'. split; [done|]. split.
    + intros x Hx. apply elem_of_union in Hx as [Hx|Hx].
      * destruct (decide (x = c)) as [->|Hxc];
          [apply Hin; clear; set_solver|].
        destruct (decide (x ∈ seen)) as [Hxs|Hxs];
          [apply Hin; clear -Hxs; set_solver|].
        apply Hin. clear -Hx Hxc Hxs. set_solver.
      * apply Hin. clear -Hx. set_solver.
    + done.
Qed.

Lemma subgraph_of_flood R graph (k : K) (res : gset K) :
  k ∈ res → res ⊆ dom graph →
  (∀ s d, s ∈ res → linked R graph s d → d ∈ res) →
  (∀ x, x ∈ res → rtc (linked R graph) k x) →
  dom (set_to_map (λ s, (s, get_dependencies R s)) res : gmap K (gset K)) = res ∧
  subgraph_of R graph (set_to_map (λ s, (s, get_dependencies R s)) res).
Proof.
  intros Hk Hdom Hcl Hrc.
  assert (∀ i x, (set_to_map (λ s, (s, get_dependencies R s)) res
                  : gmap K (gset K)) !! i = Some x
                 ↔ i ∈ res ∧ x = get_dependencies R i) as Hlk.
  { intros i x. rewrite lookup_set_to_map by (intros ?? _ _ ?; done).
    split; [intros (y & Hy & [= -> ->]); done|intros [Hi ->]; by exists i]. }
  assert (dom (set_to_map (λ s, (s, get_dependencies R s)) res
               : gmap K (gset K)) = res) as Hd.
  { apply set_eq. intros i. rewrite elem_of_dom. split.
    - intros [x Hx]. by apply Hlk in Hx as [? _].
    - intros Hi. eexists. by apply Hlk. }
  split; [done|]. unfold subgraph_of. rewrite Hd.
  split; [done|]. split; [intros s Hs; by apply Hlk|].
  split; [done|]. by exists k.
Qed.

Lemma linked_symmetric R graph (s d : K) :
  mirrored R graph → s ∈ dom graph → linked R graph s d → linked R graph d s.
Proof.
  intros Hm Hs [Hd Hl]. split; [done|].
  destruct Hl as [Hl|Hl]; [right|left]; by apply (Hm _ _).
Qed.

Lemma linked_rtc_back R graph (k x : K) :
  mirrored R graph → k ∈ dom graph →
  rtc (linked R graph) k x → x ∈ dom graph ∧ rtc (linked R graph) x k.
Proof.
  intros Hm Hk Hrtc. induction Hrtc as [x|x y z Hxy Hyz IH]; [done|].
  assert (y ∈ dom graph) as Hy by apply Hxy.
  destruct (IH Hy) as [Hz Hback]. split; [done|].
  eapply rtc_r; [done|]. by apply linked_symmetric.
Qed.

Lemma linked_rtc_closed R graph (X : gset K) (s d : K) :
  (∀ s d, s ∈ X → linked R graph s d → d ∈ X) →
  s ∈ X → rtc (linked R graph) s d → d ∈ X.
Proof.
  intros Hcl Hs Hrtc. induction Hrtc as [|x y z Hxy Hyz IH]; [done|].
  apply IH. by eapply Hcl.
Qed.

(** The outer loop, from any set of keys that are left. *)
Lemma subgraphs_from_spec R graph (bound fuel n : nat) (keys : gset K) :
  (∀ n (X : gset K), X ≠ ∅ → pop n X ∈ X) →
  size graph < bound →
  keys ⊆ dom graph →
  size keys < fuel →
  ∃ subs,
    subgraphs_from pop fuel bound R graph n keys = Some subs ∧
    (∀ k, k ∈ keys → ∃ sub, sub ∈ subs ∧ k ∈ dom sub) ∧
    Forall (subgraph_of R graph) subs ∧
    Forall (λ sub, ∃ k, k ∈ keys ∧ k ∈ dom sub
                        ∧ ∀ s, s ∈ dom sub → rtc (linked R graph) k s) subs ∧
    (mirrored R graph →
     ∀ i j a b, i < j → subs !! i = Some a → subs !! j = Some b →
                dom a ## dom b).
Proof.
  intros Hpop Hbound. revert n keys.
  induction fuel as [|fuel IH]; intros n keys Hkeys Hfuel; [lia|].
  cbn [subgraphs_from]. destruct (decide (keys = ∅)) as [->|Hne].
  { exists []. split; [done|]. split; [intros k Hk; by apply elem_of_empty in Hk|].
    split; [done|]. split; [done|]. intros _ i j a b _ Ha. done. }
  cbv zeta. pose proof (Hpop n keys Hne) as Hk.
  remember (pop n keys) as k eqn:Heqk. clear Heqk.
  destruct (flood_closes R graph k bound (S n) {[k]} ∅ Hpop)
    as (res & n' & -> & Hin & Hdom & Hcl & Hrc).
  { clear. set_solver. }
  { clear -Hk Hkeys. set_solver. }
  { intros s d Hs. by apply elem_of_empty in Hs. }
  { intros x Hx. assert (x = k) as -> by (clear -Hx; set_solver). done. }
  { rewrite difference_empty_L, size_dom. done. }
  assert (k ∈ res) as Hkres by (apply Hin; clear; set_solver).
  destruct (subgraph_of_flood R graph k res Hkres Hdom Hcl Hrc) as [Hd Hsub].
  destruct (IH n' (keys ∖ {[k]} ∖ res))
    as (subs & -> & Hcover & Hall & Hstart & Hdisj).
  { clear -Hkeys. set_solver. }
  { assert (keys ∖ {[k]} ∖ res ⊂ keys) as Hlt.
    { split; [clear; set_solver|]. intros Hsup. specialize (Hsup k Hk).
      clear -Hsup. set_solver. }
    apply subset_size in Hlt. lia. }
  eexists. split; [done|]. split; [|split; [|split]].
  - intros x Hx. destruct (decide (x ∈ res)) as [Hxr|Hxr].
    + eexists. split; [apply list_elem_of_here|]. by rewrite Hd.
    + destruct (Hcover x) as (sub & Hsubs & Hxs).
      { clear -Hx Hxr Hkres. set_solver. }
      exists sub. split; [by apply list_elem_of_further|done].
  - by apply Forall_cons.
  - apply Forall_cons. split.
    + exists k. rewrite Hd. done.
    + eapply Forall_impl; [exact Hstart|]. simpl.
      intros sub (k' & Hk' & Hrest). exists k'. split; [|done].
      clear -Hk'. set_solver.
  - intros Hm i j a b Hij Ha Hb. destruct i as [|i].
    + injection Ha as <-. destruct j as [|j]; [lia|]. simpl in Hb.
      rewrite Hd. pose proof (proj1 (Forall_lookup _ _) Hstart j b Hb)
        as (k' & Hk' & Hk'b & Hreach).
      intros x Hxa Hxb.
      assert (k' ∈ dom graph) as Hk'g by (clear -Hk' Hkeys; set_solver).
      destruct (linked_rtc_back R graph k' x Hm Hk'g (Hreach x Hxb)) as [_ Hback].
      pose proof (linked_rtc_closed R graph res x k' Hcl Hxa Hback) as Hbad.
      clear -Hbad Hk'. set_solver.
    + destruct j as [|j]; [lia|]. simpl in Ha, Hb.
      apply (Hdisj Hm i j a b); [lia|done|done].
Qed.

(** X16.  [get_subgraphs] ends, whichever elements [pop] removes, and the
    dictionaries it yields cover the keys of the graph.  Each of them maps
    its keys, which are keys of the graph, to their dependencies; contains
    every key of the graph that is a dependency or a dependent of one of
    its keys; and is reached from a single key along such links.  When the
    dependents mirror the dependencies on the keys of the graph, no key is
    in two of them. *)
Theorem get_subgraphs_components R graph (fuel : nat) :
  (∀ n (X : gset K), X ≠ ∅ → pop n X ∈ X) →
  size graph < fuel →
  ∃ subs,
    get_subgraphs pop fuel R graph = Some subs ∧
    (∀ k, k ∈ dom graph → ∃ sub, sub ∈ subs ∧ k ∈ dom sub) ∧
    Forall (subgraph_of R graph) subs ∧
    (mirrored R graph →
     ∀ i j a b, i < j → subs !! i = Some a → subs !! j = Some b →
                dom a ## dom b).
Proof.
  intros Hpop Hfuel. unfold get_subgraphs.
  destruct (subgraphs_from_spec R graph fuel fuel 0 (dom graph) Hpop Hfuel)
    as (subs & Hrun & Hcover & Hall & _ & Hdisj).
  - done.
  - by rewrite size_dom.
  - exists subs. done.
Qed.

End subgraphs.

Section incremental.
Context {K : Type} `{Countable K}.
Context {T : Type} `{Countable T}.
Context {G : Type} `{Countable G}.
Context {O : Type} `{Countable O}.
Variable pop : nat → gset K → K.
Variable ANY_TYPE : T.
Variable get_name : K → string.
Variable observe : O → K → @Broker K _ _ T _ _ O _ _ → option (@exn K).

Implicit Types (R : @Registry K _ _ T _ _ G _ _ O _ _).
Implicit Types (graph sub : gmap K (gset K)).
Implicit Types (w : @World K _ _ T _ _ O _ _).
Implicit Types (seed : @Broker K _ _ T _ _ O _ _).

(** A run from a broker made from a seed. *)
Lemma run_seeded R seed sub :
  match run ANY_TYPE get_name observe R sub
          (Some (new_Broker ANY_TYPE R (Some seed))) with
  | Ok w =>
      acyclic sub ∧
      instances seed ⊆ instances (broker w) ∧
      dom (instances (broker w)) ⊆ nodes sub ∪ dom (instances seed) ∧
      exec_times (broker w) = nodes sub
  | Raise e => cyclic sub ∧ e = CircularDependencyError
  end.
Proof.
  unfold run. pose proof (run_order_decides sub) as Hd.
  destruct (run_order sub) as [order|e]; simpl; [|done].
  destruct Hd as (Hac & Hnd & Hnodes & _).
  destruct (for_each_run_again ANY_TYPE get_name observe R order
              (mkWorld (new_Broker ANY_TYPE R (Some seed)) []) Hnd)
    as (w' & new & Hrun & Hsub & Hdom & _).
  destruct (for_each_run_observed ANY_TYPE get_name observe R order
              (mkWorld (new_Broker ANY_TYPE R (Some seed)) []))
    as (w'' & Hrun' & Hex & _).
  rewrite Hrun in Hrun'. injection Hrun' as <-. rewrite Hrun.
  assert (list_to_set order = nodes sub :> gset K) as Hset.
  { apply set_eq. intros c. by rewrite elem_of_list_to_set, Hnodes. }
  rewrite Hset in Hdom, Hex. simpl in Hsub, Hdom, Hex.
  split; [done|]. split; [done|]. split; [done|].
  rewrite Hex. apply (left_id_L ∅ (∪)).
Qed.

(** A sub-graph that maps its keys to their dependencies has a cycle only
    when the dependencies have one. *)
Lemma subgraph_cycle R graph sub :
  subgraph_of R graph sub → cyclic sub →
  ∃ c, tc (requires_directly R) c c.
Proof.
  intros (_ & Hlk & _) [c Hc]. exists c.
  assert (∀ a b, depends_on sub a b → requires_directly R a b) as Hstep.
  { intros a b (ds & Ha & Hb).
    rewrite Hlk in Ha by (apply elem_of_dom; eauto).
    injection Ha as <-. done. }
  assert (∀ a b, tc (depends_on sub) a b → tc (requires_directly R) a b)
    as Htc.
  { intros a b Hab. induction Hab as [a b Hab|a b d Hab _ IH].
    - apply tc_once. by apply Hstep.
    - eapply tc_l; [by apply Hstep|done]. }
  by apply Htc.
Qed.

(** The loop over the sub-graphs: brokers for the sub-graphs up to the first
    one that has a cycle. *)
Lemma yield_runs_spec R seed (subs : list (gmap K (gset K))) :
  ∃ ws err,
    yield_runs ANY_TYPE get_name observe R seed subs = (ws, err) ∧
    Forall2 (λ sub w,
               yielded_for ANY_TYPE get_name observe R seed sub w ∧
               instances seed ⊆ instances (broker w) ∧
               dom (instances (broker w)) ⊆ nodes sub ∪ dom (instances seed) ∧
               exec_times (broker w) = nodes sub)
      (take (length ws) subs) ws ∧
    match err with
    | None => length ws = length subs
    | Some e =>
        e = CircularDependencyError ∧
        ∃ sub, subs !! length ws = Some sub ∧ cyclic sub
    end.
Proof.
  induction subs as [|sub subs IH]; cbn [yield_runs].
  { exists [], None. split; [done|]. split; [constructor|done]. }
  cbv zeta. pose proof (run_seeded R seed sub) as Hrun.
  unfold yielded_for.
  destruct (run ANY_TYPE get_name observe R sub
              (Some (new_Broker ANY_TYPE R (Some seed)))) as [w|e] eqn:Hw.
  - destruct IH as (ws & err & -> & Hall & Herr).
    exists (w :: ws), err. split; [done|]. split.
    + cbn [length take]. constructor; [|done].
      destruct Hrun as (_ & ? & ? & ?). done.
    + destruct err as [e|]; cbn [length]; [|by rewrite Herr]. done.
  - destruct Hrun as [Hc ->]. exists [], (Some CircularDependencyError).
    split; [done|]. split; [constructor|]. split; [done|]. by exists sub.
Qed.

(** X17.  [run_incremental] yields one broker for each sub-graph of
    [get_subgraphs], in order, up to the first sub-graph that has a cycle,
    where it ends with the cycle error; without a cycle among the
    dependencies it yields a broker for every sub-graph, and every key of
    the graph has its execution time in one of them.  Each broker is the
    result of [run] on its sub-graph from a new broker made from the seed:
    it keeps the instances of the seed, gains instances only for nodes of
    its sub-graph, and holds execution times for exactly those nodes. *)
Theorem run_incremental_brokers R (components : gmap K (gset K))
    (start : option (@Broker K _ _ T _ _ O _ _)) (fuel : nat) :
  (∀ n (X : gset K), X ≠ ∅ → pop n X ∈ X) →
  size components < fuel →
  let seed := start_broker ANY_TYPE R start in
  ∃ subs ws err,
    get_subgraphs pop fuel R components = Some subs ∧
    run_incremental ANY_TYPE get_name observe pop fuel R components start
    = Some (ws, err) ∧
    Forall2 (λ sub w,
               yielded_for ANY_TYPE get_name observe R seed sub w ∧
               instances seed ⊆ instances (broker w) ∧
               dom (instances (broker w)) ⊆ nodes sub ∪ dom (instances seed) ∧
               exec_times (broker w) = nodes sub)
      (take (length ws) subs) ws ∧
    match err with
    | None =>
        length ws = length subs ∧
        ∀ c, c ∈ dom components → ∃ w, w ∈ ws ∧ c ∈ exec_times (broker w)
    | Some e =>
        e = CircularDependencyError ∧
        ∃ sub, subs !! length ws = Some sub ∧ cyclic sub
    end ∧
    ((∀ c, ¬ tc (requires_directly R) c c) → err = None).
Proof.
  intros Hpop Hfuel seed. unfold run_incremental, get_subgraphs. fold seed.
  destruct (subgraphs_from_spec pop R components fuel fuel 0 (dom components)
              Hpop Hfuel)
    as (subs & -> & Hcover & Hsubs & _); [done|by rewrite size_dom|].
  destruct (yield_runs_spec R seed subs) as (ws & err & Hrun & Hall & Herr).
  exists subs, ws, err. cbn [fmap option_fmap option_map]. rewrite Hrun.
  split; [done|]. split; [done|]. split; [done|]. split.
  - destruct err as [e|]; [done|]. split; [done|].
    intros c Hc. destruct (Hcover c Hc) as (sub & Hsub & Hcs).
    rewrite take_ge in Hall by lia.
    apply list_elem_of_lookup in Hsub as [i Hi].
    destruct (Forall2_lookup_l _ _ _ _ _ Hall Hi) as (w & Hw & _ & _ & _ & Hex).
    exists w. split; [by eapply list_elem_of_lookup_2|].
    rewrite Hex. unfold nodes. by apply elem_of_union_l.
  - intros Hwf. destruct err as [e|]; [|done].
    destruct Herr as (_ & sub & Hsub & Hcyc).
    apply list_elem_of_lookup_2 in Hsub.
    pose proof (proj1 (Forall_forall _ _) Hsubs sub Hsub) as Hof.
    destruct (subgraph_cycle R components sub Hof Hcyc) as [c Hc].
    by destruct (Hwf c).
Qed.

End incremental.

(** * Witnesses and counterexamples *)

Lemma result_inspect {K A} (r : @result K A) (check : A → bool) :
  match r with Ok a => check a = true | Raise _ => False end →
  ∃ a, r = Ok a ∧ check a = true.
Proof. destruct r; [eauto|done]. Qed.

Lemma bind_Ok {K A B} (m : @result K A) (k : A → @result K B) (b : B) :
  bind m k = Ok b → ∃ a, m = Ok a ∧ k a = Ok b.
Proof. destruct m; [eauto|done]. Qed.

Lemma run_twice_Ok R g w1 w2 :
  Scenario.run_twice R g = Ok (w1, w2) →
  run Scenario.ANY Scenario.qualified Scenario.quiet R g None = Ok w1 ∧
  run Scenario.ANY Scenario.qualified Scenario.quiet R g (Some (broker w1)) = Ok w2.
Proof.
  unfold Scenario.run_twice. intros (w1' & H1 & Hb)%bind_Ok.
  apply bind_Ok in Hb as (w2' & H2 & [= <- <-]). done.
Qed.

(** With [requires = ([A, B],)], [A] holding [1] and [B] absent, the
    component is called as [f(1, None)], not as [f([1, None])]. *)
Lemma default_executor_grouped_fails :
  ¬ default_executor_grouped Scenario.qualified Scenario.echo
      ∅ "C" Scenario.only_A [AnyOf ["A"; "B"]] [].
Proof.
  unfold default_executor_grouped. intros Hc.
  assert (get_missing_requirements ∅ "C" [AnyOf ["A"; "B"]] Scenario.only_A
          = Ok None) as Hm by (vm_compute; reflexivity).
  specialize (Hc Hm). vm_compute in Hc. discriminate Hc.
Qed.

Lemma default_executor_flat_arguments_witness :
  get_missing_requirements ∅ "C" [AnyOf ["A"; "B"]] Scenario.only_A = Ok None ∧
  default_executor Scenario.qualified Scenario.echo ∅ "C" Scenario.only_A
    [AnyOf ["A"; "B"]] []
  = Ok (VList [VInt 1; VNone]).
Proof.
  split; [vm_compute; reflexivity|].
  destruct (default_executor_flat_arguments Scenario.qualified Scenario.echo
              ∅ "C" Scenario.only_A [AnyOf ["A"; "B"]] []) as [-> _].
  - vm_compute; reflexivity.
  - vm_compute; reflexivity.
Defined.

(** A component without requirements is not skipped on an ignore hit. *)
Lemma ignore_always_skips_fails :
  ¬ ignore_always_skips {["C" := {["A"]}]} "C" [] Scenario.only_A.
Proof.
  unfold ignore_always_skips. intros Hc.
  assert (ignored {["C" := {["A"]}]} "C" Scenario.only_A) as Hig.
  { exists "A". split; vm_compute; reflexivity. }
  specialize (Hc Hig). discriminate Hc.
Qed.

Lemma ignore_skips_nonempty_spec_witness :
  ignored {["C" := {["A"]}]} "C" Scenario.only_A ∧
  get_missing_requirements {["C" := {["A"]}]} "C" [Single "B"] Scenario.only_A
  = Raise SkipComponent ∧
  default_executor Scenario.qualified Scenario.echo {["C" := {["A"]}]} "C"
    Scenario.only_A [Single "B"] []
  = Raise SkipComponent.
Proof.
  assert (ignored {["C" := {["A"]}]} "C" Scenario.only_A) as Hig.
  { exists "A". split; vm_compute; reflexivity. }
  split; [exact Hig|].
  destruct (ignore_skips_nonempty_spec Scenario.qualified Scenario.echo
              {["C" := {["A"]}]} "C" [Single "B"] [] Scenario.only_A Hig)
    as [_ Hne].
  destruct Hne as (Hm & Hd & _); [discriminate|].
  split; [exact Hm | exact Hd].
Defined.

(** An ignore hit on a satisfied, non-empty spec: the computation raises
    [SkipComponent] instead of returning none. *)
Lemma missing_report_fails_when_ignored :
  ¬ missing_report {["C" := {["A"]}]} "C" [Single "A"] Scenario.only_A.
Proof.
  intros [_ Hne]. destruct (Hne ltac:(discriminate)) as [[_ Hsat] _].
  assert (satisfied [Single "A"] Scenario.only_A) as Hs.
  { split; simpl; intros x Hx.
    - apply list_elem_of_singleton in Hx as ->. vm_compute; reflexivity.
    - by apply not_elem_of_nil in Hx. }
  specialize (Hsat Hs). vm_compute in Hsat. discriminate Hsat.
Qed.

Lemma missing_report_unless_ignored_witness :
  ([Single "A"; AnyOf ["B"; "D"]] = [] ∨
   ¬ ignored {["C" := {["X"]}]} "C" Scenario.only_A) ∧
  missing_report {["C" := {["X"]}]} "C" [Single "A"; AnyOf ["B"; "D"]]
    Scenario.only_A.
Proof.
  assert (¬ ignored {["C" := {["X"]}]} "C" Scenario.only_A) as Hn.
  { rewrite <- existsb_ignored. vm_compute. discriminate. }
  split; [right; exact Hn|].
  apply (missing_report_unless_ignored {["C" := {["X"]}]} "C"
           [Single "A"; AnyOf ["B"; "D"]] Scenario.only_A).
  right. exact Hn.
Defined.

(** Deleting an absent key returns normally. *)
Lemma delitem_like_dict_fails :
  ¬ (put_get_contains Scenario.qualified (mkWorld Scenario.only_A []) "B" ∧
     delitem_like_dict Scenario.qualified (mkWorld Scenario.only_A []) "B").
Proof.
  intros [_ Hd]. unfold delitem_like_dict in Hd. vm_compute in Hd.
  destruct Hd as [e He]. discriminate He.
Qed.

(** After [C] is declared with [A] and then with [B], [A] still lists [C]
    among its dependents although [C] no longer depends on [A]. *)
Lemma mirror_fails_after_redeclaration : ¬ mirror Scenario.C_declared_twice.
Proof.
  intros Hm.
  assert ("C" ∈ dom (DELEGATES Scenario.C_declared_twice)) as Hreg
    by (vm_compute; reflexivity).
  destruct (Hm "C" Hreg "A") as [_ Hback].
  assert ("C" ∈ dependents_of Scenario.C_declared_twice "A") as Hdep
    by (vm_compute; reflexivity).
  specialize (Hback Hdep). vm_compute in Hback. discriminate Hback.
Qed.

Lemma register_component_only_adds_witness :
  component Scenario.C_as_rule = component Scenario.C_as_parser ∧
  let R2 :=
    register_component Scenario.qualified Scenario.no_module Scenario.no_module
      Scenario.C_as_parser
      (register_component Scenario.qualified Scenario.no_module
         Scenario.no_module Scenario.C_as_rule empty_registry) in
  DELEGATES R2 !! "C" = Some Scenario.C_as_parser ∧
  "C" ∈ dom (components_of R2 (Some Scenario.cluster)) ∧
  "C" ∈ components_by_type R2 (Some Scenario.parser) ∧
  "C" ∈ dom (components_of R2 (Some Scenario.single)) ∧
  "C" ∈ components_by_type R2 (Some Scenario.rule).
Proof.
  split; [reflexivity|].
  destruct (register_component_only_adds Scenario.qualified Scenario.no_module
              Scenario.no_module Scenario.C_as_rule Scenario.C_as_parser
              empty_registry eq_refl)
    as (H1 & H2 & H3 & H4 & H5 & _).
  repeat split; assumption.
Defined.

Lemma run_exclusive_dispositions_witness :
  ∃ w,
    run Scenario.ANY Scenario.qualified Scenario.quiet Scenario.four_ways
      Scenario.four_ways_graph None = Ok w ∧
    "V" ∈ dom (instances (broker w)) ∧
    "N" ∈ dom (missing_requirements (broker w)) ∧
    "F" ∈ dom (exceptions (broker w)) ∧
    unrecorded (broker w) "S" ∧
    unrecorded (broker w) "U" ∧
    ∀ c, c ∈ dom Scenario.four_ways_graph →
      ∃ at_turn,
        reaches Scenario.ANY Scenario.qualified Scenario.quiet
          Scenario.four_ways Scenario.four_ways_graph c at_turn ∧
        unrecorded at_turn c ∧
        exclusive_disposition Scenario.four_ways at_turn (broker w) c.
Proof.
  destruct (result_inspect
              (run Scenario.ANY Scenario.qualified Scenario.quiet
                 Scenario.four_ways Scenario.four_ways_graph None)
              (λ w, bool_decide ("V" ∈ dom (instances (broker w)))
                    && bool_decide ("N" ∈ dom (missing_requirements (broker w)))
                    && bool_decide ("F" ∈ dom (exceptions (broker w)))
                    && bool_decide (unrecorded (broker w) "S")
                    && bool_decide (unrecorded (broker w) "U")))
    as (w & Hrun & Hchk); [vm_compute; reflexivity|].
  repeat (apply andb_true_iff in Hchk as [Hchk ?]).
  destruct (run_exclusive_dispositions Scenario.ANY Scenario.qualified
              Scenario.quiet Scenario.four_ways Scenario.four_ways_graph)
    as [_ Hex].
  exists w. split; [exact Hrun|].
  repeat (split; [by eapply bool_decide_eq_true|]).
  exact (Hex w Hrun).
Defined.

Lemma run_order_topological_witness :
  acyclic Scenario.A_fails_graph ∧
  (∃ l, run_order Scenario.A_fails_graph = Ok l ∧
        topological_order Scenario.A_fails_graph l) ∧
  cyclic Scenario.two_cycle ∧
  run_order Scenario.two_cycle = Raise CircularDependencyError.
Proof.
  assert (acyclic Scenario.A_fails_graph) as Hac.
  { pose proof (run_order_decides Scenario.A_fails_graph) as Hd.
    destruct (run_order Scenario.A_fails_graph) as [l|e] eqn:E;
      [apply Hd|]. vm_compute in E. discriminate E. }
  assert (cyclic Scenario.two_cycle) as Hcyc.
  { exists "A". apply (tc_l _ "A" "B" "A"); [|apply tc_once].
    - exists {["B"]}. split; vm_compute; reflexivity.
    - exists {["A"]}. split; vm_compute; reflexivity. }
  destruct (run_order_topological Scenario.A_fails_graph) as [Hok _].
  destruct (run_order_topological Scenario.two_cycle) as [_ Hraise].
  split; [exact Hac|]. split; [exact (Hok Hac)|].
  split; [exact Hcyc|exact (Hraise Hcyc)].
Defined.

(** On the second run [P] finds [Q] in the broker and now returns a value:
    [instances] gains an entry. *)
Lemma rerun_adds_an_instance :
  ¬ rerun_is_noop Scenario.ANY Scenario.qualified Scenario.quiet
      Scenario.P_peeks_at_Q Scenario.P_peeks_at_Q_graph.
Proof.
  intros Hnoop.
  destruct (result_inspect
              (Scenario.run_twice Scenario.P_peeks_at_Q Scenario.P_peeks_at_Q_graph)
              (λ ww, match instances (broker ww.1) !! "P",
                           instances (broker ww.2) !! "P" with
                     | None, Some _ => true
                     | _, _ => false
                     end))
    as ([w1 w2] & [H1 H2]%run_twice_Ok & Hchk); [vm_compute; reflexivity|].
  destruct (Hnoop w1 w2 H1 H2) as [Heq _]. simpl in Hchk.
  rewrite Heq in Hchk. by destruct (instances (broker w1) !! "P").
Qed.

(** With [A] raising, the second run invokes [A] and [B] again although
    [instances] stays empty. *)
Lemma rerun_invokes_failed_components :
  ∃ w1 w2,
    run Scenario.ANY Scenario.qualified Scenario.quiet Scenario.A_fails
      Scenario.A_fails_graph None = Ok w1 ∧
    run Scenario.ANY Scenario.qualified Scenario.quiet Scenario.A_fails
      Scenario.A_fails_graph (Some (broker w1)) = Ok w2 ∧
    instances (broker w2) = instances (broker w1) ∧
    tried (events w2) = ["A"; "B"] ∧
    length <$> exceptions (broker w1) !! "A" = Some 1 ∧
    length <$> exceptions (broker w2) !! "A" = Some 2.
Proof.
  destruct (result_inspect
              (Scenario.run_twice Scenario.A_fails Scenario.A_fails_graph)
              (λ ww, bool_decide (dom (instances (broker ww.1)) = ∅)
                     && bool_decide (dom (instances (broker ww.2)) = ∅)
                     && bool_decide (tried (events ww.2) = ["A"; "B"])
                     && bool_decide
                          (length <$> exceptions (broker ww.1) !! "A" = Some 1)
                     && bool_decide
                          (length <$> exceptions (broker ww.2) !! "A" = Some 2)))
    as ([w1 w2] & [H1 H2]%run_twice_Ok & Hchk); [vm_compute; reflexivity|].
  cbn [fst snd] in Hchk.
  apply andb_true_iff in Hchk as [Hchk He2].
  apply andb_true_iff in Hchk as [Hchk He1].
  apply andb_true_iff in Hchk as [Hchk Ht].
  apply andb_true_iff in Hchk as [Hi1 Hi2].
  apply bool_decide_eq_true in Hi1. apply bool_decide_eq_true in Hi2.
  apply bool_decide_eq_true in Ht. apply bool_decide_eq_true in He1.
  apply bool_decide_eq_true in He2.
  apply dom_empty_iff_L in Hi1. apply dom_empty_iff_L in Hi2.
  exists w1, w2. split; [exact H1|]. split; [exact H2|].
  split; [by rewrite Hi1, Hi2|]. split; [exact Ht|].
  split; [exact He1|exact He2].
Qed.

Lemma rerun_keeps_instances_witness :
  ∃ w1 w2,
    run Scenario.ANY Scenario.qualified Scenario.quiet
      Scenario.P_peeks_at_Q Scenario.P_peeks_at_Q_graph None = Ok w1 ∧
    run Scenario.ANY Scenario.qualified Scenario.quiet
      Scenario.P_peeks_at_Q Scenario.P_peeks_at_Q_graph
      (Some (broker w1)) = Ok w2 ∧
    instances (broker w1) ⊆ instances (broker w2) ∧
    (∀ c, c ∈ tried (events w2) ↔
          c ∈ nodes Scenario.P_peeks_at_Q_graph
          ∧ (c ∉ dom (instances (broker w1)))
          ∧ c ∈ dom (DELEGATES Scenario.P_peeks_at_Q)).
Proof.
  destruct (result_inspect
              (Scenario.run_twice Scenario.P_peeks_at_Q
                 Scenario.P_peeks_at_Q_graph)
              (λ _, true))
    as ([w1 w2] & [H1 H2]%run_twice_Ok & _); [vm_compute; reflexivity|].
  exists w1, w2. split; [exact H1|]. split; [exact H2|].
  destruct (rerun_keeps_instances Scenario.ANY Scenario.qualified
              Scenario.quiet Scenario.P_peeks_at_Q
              Scenario.P_peeks_at_Q_graph w1 w2 H1 H2) as (Hsub & Htried & _).
  split; [exact Hsub|exact Htried].
Defined.

Lemma option_inspect {A} (o : option A) (check : A → bool) :
  match o with Some a => check a = true | None => False end →
  ∃ a, o = Some a ∧ check a = true.
Proof. destruct o; [eauto|done]. Qed.

Lemma missing_requirements_shrink_witness :
  dom (instances (Scenario.broker_of ∅)) ⊆ dom (instances Scenario.only_A) ∧
  (unsatisfied [Single "A"; AnyOf ["B"; "D"]] Scenario.only_A).1
  `sublist_of`
  (unsatisfied [Single "A"; AnyOf ["B"; "D"]] (Scenario.broker_of ∅)).1.
Proof.
  assert (dom (instances (Scenario.broker_of ∅))
          ⊆ dom (instances Scenario.only_A)) as Hsub.
  { simpl. rewrite dom_empty_L. apply empty_subseteq. }
  split; [exact Hsub|].
  apply (missing_requirements_shrink ∅ "C" [Single "A"; AnyOf ["B"; "D"]]
           (Scenario.broker_of ∅) Scenario.only_A Hsub).
Defined.

Lemma executors_report_unsatisfied_witness :
  [Single "A"] ≠ [] ∧
  ¬ ignored ∅ "C" (Scenario.broker_of ∅) ∧
  ¬ satisfied [Single "A"] (Scenario.broker_of ∅) ∧
  default_executor Scenario.qualified Scenario.echo ∅ "C"
    (Scenario.broker_of ∅) [Single "A"] []
  = Raise (MissingRequirements (unsatisfied [Single "A"] (Scenario.broker_of ∅))).
Proof.
  assert (¬ ignored ∅ "C" (Scenario.broker_of ∅)) as Hig.
  { rewrite <- existsb_ignored. vm_compute. discriminate. }
  assert (¬ satisfied [Single "A"] (Scenario.broker_of ∅)) as Hns.
  { intros [Ha _]. specialize (Ha "A" ltac:(simpl; left)).
    simpl in Ha. rewrite dom_empty_L in Ha. by apply not_elem_of_empty in Ha. }
  split; [discriminate|]. split; [exact Hig|]. split; [exact Hns|].
  destruct (executors_report_unsatisfied Scenario.qualified Scenario.echo
              ∅ "C" (Scenario.broker_of ∅) [Single "A"] []
              ltac:(discriminate) Hig) as [Hraise _].
  apply (Hraise Hns).
Defined.

Lemma broker_put_get_delete_witness :
  ("A" ∉ dom (instances (Scenario.broker_of ∅))) ∧
  ∃ w1,
    broker_setitem Scenario.qualified "A" (VInt 1)
      (mkWorld (Scenario.broker_of ∅) []) = (Ok (), w1) ∧
    broker_getitem Scenario.qualified (broker w1) "A" = Ok (VInt 1) ∧
    broker_delitem "A" w1 = (Ok (), mkWorld (Scenario.broker_of ∅) []).
Proof.
  assert ("A" ∉ dom (instances (Scenario.broker_of ∅))) as Hn.
  { simpl. rewrite dom_empty_L. apply not_elem_of_empty. }
  split; [exact Hn|].
  destruct (broker_put_get_delete Scenario.qualified
              (mkWorld (Scenario.broker_of ∅) []) "A" (VInt 1) Hn)
    as (w1 & Hput & Hget & _ & _ & _ & Hdel).
  exists w1. split; [exact Hput|]. split; [exact Hget|exact Hdel].
Defined.

Lemma registry_stays_consistent_witness :
  ∃ R,
    mutate_all Scenario.qualified Scenario.echo Scenario.no_module
      Scenario.no_module Scenario.program empty_registry = Some R ∧
    registry_consistent R.
Proof.
  destruct (option_inspect
              (mutate_all Scenario.qualified Scenario.echo Scenario.no_module
                 Scenario.no_module Scenario.program empty_registry)
              (λ _, true)) as (R & HR & _); [vm_compute; reflexivity|].
  exists R. split; [exact HR|].
  exact (registry_stays_consistent Scenario.qualified Scenario.echo
           Scenario.no_module Scenario.no_module Scenario.program R HR).
Defined.

Lemma run_times_and_observes_witness :
  ∃ w,
    run Scenario.ANY Scenario.qualified Scenario.quiet Scenario.A_fails
      Scenario.A_fails_graph None = Ok w ∧
    exec_times (broker w)
    = exec_times (start_broker Scenario.ANY Scenario.A_fails None)
      ∪ nodes Scenario.A_fails_graph.
Proof.
  destruct (result_inspect
              (run Scenario.ANY Scenario.qualified Scenario.quiet
                 Scenario.A_fails Scenario.A_fails_graph None)
              (λ _, true)) as (w & Hrun & _); [vm_compute; reflexivity|].
  exists w. split; [exact Hrun|].
  apply (run_times_and_observes Scenario.ANY Scenario.qualified
           Scenario.quiet Scenario.A_fails Scenario.A_fails_graph None w Hrun).
Defined.

Lemma value_means_requirements_met_witness :
  ∃ w v,
    run Scenario.ANY Scenario.qualified Scenario.quiet Scenario.chain
      Scenario.chain_graph None = Ok w ∧
    instances (broker w) !! "B" = Some v ∧
    satisfied [Single "A"] (broker w).
Proof.
  destruct (result_inspect
              (run Scenario.ANY Scenario.qualified Scenario.quiet
                 Scenario.chain Scenario.chain_graph None)
              (λ w, match instances (broker w) !! "B" with
                    | Some _ => true
                    | None => false
                    end)) as (w & Hrun & Hchk); [vm_compute; reflexivity|].
  destruct (instances (broker w) !! "B") as [v|] eqn:Hv; [|discriminate Hchk].
  exists w, v. split; [exact Hrun|]. split; [exact Hv|].
  pose (dl := mkDelegate (G := string) (T := string) (O := string) "B"
                (default_executor Scenario.qualified Scenario.echo)
                (Some Scenario.single) [Single "A"] [] []
                (Some Scenario.rule)
                (reg_dependencies (Scenario.decl "B" [Single "A"] []))).
  assert (DELEGATES Scenario.chain !! "B" = Some dl) as Hdl.
  { unfold Scenario.chain, register_all. cbn [foldl].
    rewrite register_delegate. apply lookup_insert_eq. }
  destruct (value_means_requirements_met Scenario.ANY Scenario.qualified
              Scenario.echo Scenario.quiet Scenario.chain
              Scenario.chain_graph None w "B" v dl Hrun Hv) as [Hnil|Hs].
  - simpl. rewrite dom_empty_L. apply not_elem_of_empty.
  - exact Hdl.
  - left. reflexivity.
  - discriminate Hnil.
  - exact Hs.
Defined.

Lemma global_observer_is_called_witness :
  ∃ w,
    run Scenario.ANY Scenario.qualified Scenario.quiet
      (add_observer "log" Scenario.rule Scenario.A_fails)
      Scenario.A_fails_graph None = Ok w ∧
    ("log", "A") ∈ observer_calls (events w).
Proof.
  destruct (result_inspect
              (run Scenario.ANY Scenario.qualified Scenario.quiet
                 (add_observer "log" Scenario.rule Scenario.A_fails)
                 Scenario.A_fails_graph None)
              (λ _, true)) as (w & Hrun & _); [vm_compute; reflexivity|].
  exists w. split; [exact Hrun|].
  apply (global_observer_is_called Scenario.ANY Scenario.qualified
           Scenario.quiet Scenario.A_fails "log" Scenario.rule
           Scenario.A_fails_graph w "A" Hrun).
  - vm_compute. reflexivity.
  - left. vm_compute. reflexivity.
Defined.

Lemma walk_dependencies_reachable_witness :
  ∃ calls,
    walk_dependencies 3 Scenario.chain "B" = Some calls ∧
    ∀ c, (∃ oq, (c, oq) ∈ calls)
         ↔ rtc (requires_directly Scenario.chain) "B" c.
Proof.
  destruct (option_inspect (walk_dependencies 3 Scenario.chain "B")
              (λ _, true)) as (calls & Hwalk & _); [vm_compute; reflexivity|].
  exists calls. split; [exact Hwalk|].
  apply (walk_dependencies_reachable 3 Scenario.chain "B" calls Hwalk).
Defined.

Lemma first_element_member (n : nat) (X : gset string) :
  X ≠ ∅ → Scenario.first_element n X ∈ X.
Proof.
  intros Hne. unfold Scenario.first_element.
  destruct (elements X) as [|x l] eqn:Hl.
  - by apply elements_empty_inv, leibniz_equiv in Hl.
  - simpl. apply elem_of_elements. rewrite Hl. apply list_elem_of_here.
Qed.

Lemma get_subgraphs_components_witness :
  size Scenario.two_islands_graph < 4 ∧
  ∃ subs,
    get_subgraphs Scenario.first_element 4 Scenario.two_islands
      Scenario.two_islands_graph = Some subs ∧
    length subs = 2 ∧
    (∀ k, k ∈ dom Scenario.two_islands_graph →
          ∃ sub, sub ∈ subs ∧ k ∈ dom sub) ∧
    Forall (subgraph_of Scenario.two_islands Scenario.two_islands_graph) subs.
Proof.
  assert (size Scenario.two_islands_graph < 4) as Hsize
    by (vm_compute; lia).
  split; [exact Hsize|].
  destruct (get_subgraphs_components Scenario.first_element
              Scenario.two_islands Scenario.two_islands_graph 4
              first_element_member Hsize)
    as (subs & Hsubs & Hcover & Hall & _).
  exists subs. split; [exact Hsubs|]. split; [|by split].
  destruct (option_inspect
              (get_subgraphs Scenario.first_element 4 Scenario.two_islands
                 Scenario.two_islands_graph)
              (λ subs, Nat.eqb (length subs) 2))
    as (subs' & Hsubs' & Hlen); [vm_compute; reflexivity|].
  rewrite Hsubs in Hsubs'. injection Hsubs' as <-. by apply Nat.eqb_eq.
Defined.

Lemma run_incremental_brokers_witness :
  size Scenario.two_islands_graph < 4 ∧
  ∃ ws,
    run_incremental Scenario.ANY Scenario.qualified Scenario.quiet
      Scenario.first_element 4 Scenario.two_islands
      Scenario.two_islands_graph None = Some (ws, None) ∧
    length ws = 2 ∧
    ∀ c, c ∈ dom Scenario.two_islands_graph →
         ∃ w, w ∈ ws ∧ c ∈ exec_times (broker w).
Proof.
  assert (size Scenario.two_islands_graph < 4) as Hsize
    by (vm_compute; lia).
  split; [exact Hsize|].
  destruct (run_incremental_brokers Scenario.first_element Scenario.ANY
              Scenario.qualified Scenario.quiet Scenario.two_islands
              Scenario.two_islands_graph None 4 first_element_member Hsize)
    as (subs & ws & err & Hsubs & Hrun & Hall & Herr & _).
  destruct (option_inspect
              (run_incremental Scenario.ANY Scenario.qualified Scenario.quiet
                 Scenario.first_element 4 Scenario.two_islands
                 Scenario.two_islands_graph None)
              (λ r, Nat.eqb (length r.1) 2
                    && match r.2 with None => true | Some _ => false end))
    as (r & Hr & Hchk); [vm_compute; reflexivity|].
  rewrite Hrun in Hr. injection Hr as <-. simpl in Hchk.
  apply andb_true_iff in Hchk as [Hlen Hnone].
  destruct err as [e|]; [discriminate Hnone|].
  exists ws. split; [exact Hrun|]. split; [by apply Nat.eqb_eq|].
  apply Herr.
Defined.
